(** * Bananakyu: the job pipeline views and their status mutations

    A shallow embedding of the pure parts of the dashboard:
    - [KanbanBoard] (src/components/kanban-board.tsx): [STATUS_CONFIG],
      [columns] and the [jobsByStatus] grouping;
    - [JobsTable] (src/components/jobs-table.tsx): [handleSort] and the
      [sortedJobs] derivation with its comparator;
    - [DashboardPage] (src/app/(dashboards)/dashboard/page.tsx):
      [MOCK_JOBS] and [handleStatusChange];
    - the [jobs] table of src/server/db/schema.ts with its column defaults.

    A JavaScript string is modelled as a [string] holding its code units,
    one [ascii] per code unit, for the strings whose code units are below
    256 (ASCII and the Latin-1 letters; such a character is written by its
    decimal code, as in ["201"%char], not by bytes of an encoding); a valid
    [Date] by its time value in milliseconds ([Z]), a plain object used as a
    dictionary by a [gmap], arrays by lists, and [Array.prototype.sort] by
    a stable insertion sort for each of the two ways engines question the
    comparator. *)

From Stdlib Require Import ZArith String Ascii List Sorted Permutation Lia.
From stdpp Require Import base decidable countable list gmap strings sorting.

Local Open Scope string_scope.
Local Open Scope list_scope.

(** ** The status pipeline *)

(** [type JobStatus = keyof typeof STATUS_CONFIG] *)
Inductive JobStatus : Type :=
  | APPLYING
  | APPLIED
  | FOR_INTERVIEW
  | INTERVIEWING
  | OFFER
  | NEGOTIATING
  | HIRED
  | ON_HOLD
  | REJECTED
  | NO_RESPONSE
  | WITHDRAW.

Global Instance JobStatus_eq_dec : EqDecision JobStatus.
Proof. solve_decision. Defined.

Record StatusMeta : Type := mkMeta { label : string; color : string }.

(** [STATUS_CONFIG], an object literal: its own keys are enumerated in the
    order they are written. *)
Definition STATUS_CONFIG : list (JobStatus * StatusMeta) :=
  [ (APPLYING, mkMeta "To Apply" "bg-muted");
    (APPLIED, mkMeta "Applied" "bg-blue-500/10 text-blue-700");
    (FOR_INTERVIEW, mkMeta "For Interview" "bg-purple-500/10 text-purple-700");
    (INTERVIEWING, mkMeta "Interviewing" "bg-primary/10 text-primary");
    (OFFER, mkMeta "Offer" "bg-secondary/10 text-secondary-foreground");
    (NEGOTIATING, mkMeta "Negotiating" "bg-yellow-500/10 text-yellow-700");
    (HIRED, mkMeta "Hired" "bg-green-500/10 text-green-700");
    (ON_HOLD, mkMeta "On Hold" "bg-gray-500/10 text-gray-700");
    (REJECTED, mkMeta "Rejected" "bg-red-500/10 text-red-700");
    (NO_RESPONSE, mkMeta "No Response" "bg-orange-500/10 text-orange-700");
    (WITHDRAW, mkMeta "Withdrawn" "bg-gray-500/10 text-gray-700") ].

(** [Object.keys(STATUS_CONFIG) as JobStatus[]] *)
Definition columns : list JobStatus := fst <$> STATUS_CONFIG.

(** Position of a status among the keys of [STATUS_CONFIG]. *)
Definition status_index (s : JobStatus) : nat :=
  match s with
  | APPLYING => 0 | APPLIED => 1 | FOR_INTERVIEW => 2 | INTERVIEWING => 3
  | OFFER => 4 | NEGOTIATING => 5 | HIRED => 6 | ON_HOLD => 7
  | REJECTED => 8 | NO_RESPONSE => 9 | WITHDRAW => 10
  end.

Global Instance JobStatus_countable : Countable JobStatus.
Proof.
  refine (inj_countable' status_index (fun n => nth n columns APPLYING) _).
  intros []; reflexivity.
Defined.

(** The key of a status as a JavaScript string. *)
Definition status_name (s : JobStatus) : string :=
  match s with
  | APPLYING => "APPLYING"
  | APPLIED => "APPLIED"
  | FOR_INTERVIEW => "FOR_INTERVIEW"
  | INTERVIEWING => "INTERVIEWING"
  | OFFER => "OFFER"
  | NEGOTIATING => "NEGOTIATING"
  | HIRED => "HIRED"
  | ON_HOLD => "ON_HOLD"
  | REJECTED => "REJECTED"
  | NO_RESPONSE => "NO_RESPONSE"
  | WITHDRAW => "WITHDRAW"
  end.

(** ** Job records *)

(** [interface Job]; [createdAt] is the time value of the [Date]. *)
Record Job : Type := mkJob {
  id : string;
  company : string;
  position : string;
  status : JobStatus;
  url : option string;
  salary : option string;
  note : option string;
  createdAt : Z
}.

Global Instance Job_eq_dec : EqDecision Job.
Proof. solve_decision. Defined.

(** ** Kanban grouping *)

(** The object literal [grouped] before the loop: one empty array per key. *)
Definition grouped_init : gmap JobStatus (list Job) :=
  list_to_map
    [ (APPLYING, []); (APPLIED, []); (FOR_INTERVIEW, []); (INTERVIEWING, []);
      (OFFER, []); (NEGOTIATING, []); (HIRED, []); (ON_HOLD, []);
      (REJECTED, []); (NO_RESPONSE, []); (WITHDRAW, []) ].

(** [grouped[job.status].push(job)]: reading an absent key gives [undefined],
    on which [.push] throws; that is the [None] here. *)
Definition push_job (grouped : gmap JobStatus (list Job)) (job : Job)
  : option (gmap JobStatus (list Job)) :=
  match grouped !! status job with
  | Some bucket => Some (<[status job := bucket ++ [job]]> grouped)
  | None => None
  end.

(** [jobs.forEach((job) => { grouped[job.status].push(job); })] *)
Fixpoint forEach (jobs : list Job) (grouped : gmap JobStatus (list Job))
  : option (gmap JobStatus (list Job)) :=
  match jobs with
  | [] => Some grouped
  | job :: rest =>
      match push_job grouped job with
      | Some grouped' => forEach rest grouped'
      | None => None
      end
  end.

Definition jobsByStatus (jobs : list Job) : option (gmap JobStatus (list Job)) :=
  forEach jobs grouped_init.

(** [jobsByStatus[status]], as passed to each [KanbanColumn]. *)
Definition bucket (grouped : gmap JobStatus (list Job)) (s : JobStatus) : list Job :=
  grouped !!! s.

(** The numbers shown in the column badges, [jobs.length], added up. *)
Definition total_count (grouped : gmap JobStatus (list Job)) : nat :=
  sum_list ((fun s => length (bucket grouped s)) <$> columns).

(** ** The card menu *)

(** [JobCard]: one menu entry per key of [STATUS_CONFIG], whatever the
    card's current status; clicking an entry calls
    [onStatusChange(job.id, status)].  The list of calls the menu offers. *)
Definition menu_calls (job : Job) : list (string * JobStatus) :=
  (fun status => (id job, status)) <$> columns.

(** ** Dashboard state *)

(** [{ ...job, status: newStatus }] *)
Definition set_status (job : Job) (newStatus : JobStatus) : Job :=
  {| id := id job;
     company := company job;
     position := position job;
     status := newStatus;
     url := url job;
     salary := salary job;
     note := note job;
     createdAt := createdAt job |}.

(** [handleStatusChange], as the updater handed to [setJobs]: the next
    collection computed from the previous one.  Both views call it with a
    key of [STATUS_CONFIG] as [newStatus]. *)
Definition handleStatusChange (jobId : string) (newStatus : JobStatus)
    (prevJobs : list Job) : list Job :=
  (fun job => if String.eqb (id job) jobId then set_status job newStatus else job)
    <$> prevJobs.

(** [MOCK_JOBS]; [new Date("2024-01-15")] is midnight UTC of that day. *)
Definition MOCK_JOBS : list Job :=
  [ mkJob "1" "Google" "Senior Software Engineer" INTERVIEWING None
      (Some "$150k - $200k") (Some "Phone screen scheduled for next week")
      1705276800000;
    mkJob "2" "Meta" "Frontend Developer" APPLIED None
      (Some "$140k - $180k") None 1705708800000;
    mkJob "3" "Amazon" "Full Stack Engineer" FOR_INTERVIEW None
      (Some "$130k - $170k") (Some "Recruiter reached out") 1705536000000;
    mkJob "4" "Netflix" "Software Engineer" OFFER None
      (Some "$160k - $210k") (Some "Offer received! Negotiating") 1704844800000;
    mkJob "5" "Apple" "iOS Developer" REJECTED None
      (Some "$145k - $185k") (Some "Not a good fit") 1704412800000 ].

(** ** Table view *)

(** [type SortField = "company" | "position" | "status" | "createdAt"] *)
Module SortField.
Inductive t : Type := company | position | status | createdAt.
End SortField.

Global Instance SortField_eq_dec : EqDecision SortField.t.
Proof. solve_decision. Defined.

(** [type SortDirection = "asc" | "desc"] *)
Inductive SortDirection : Type := asc | desc.

Global Instance SortDirection_eq_dec : EqDecision SortDirection.
Proof. solve_decision. Defined.

(** The two [useState] cells of [JobsTable]. *)
Record SortState : Type := mkSort {
  sortField : SortField.t;
  sortDirection : SortDirection
}.

(** [useState<SortField>("createdAt")], [useState<SortDirection>("desc")] *)
Definition initial_sort : SortState := mkSort SortField.createdAt desc.

(** [handleSort] *)
Definition handleSort (field : SortField.t) (st : SortState) : SortState :=
  if decide (sortField st = field) then
    mkSort (sortField st)
           (if decide (sortDirection st = asc) then desc else asc)
  else
    mkSort field asc.

(** A code unit that is a capital letter: A-Z, and in the upper half of the
    range the letters from A-grave (192) to Thorn (222), the multiplication
    sign (215) among them excepted. *)
Definition capital_code (n : N) : bool :=
  ((65 <=? n) && (n <=? 90) || (192 <=? n) && (n <=? 222) && negb (n =? 215))%N.

(** [String.prototype.toLowerCase], code unit by code unit.  On code units
    below 256 the capital letters are those of [capital_code], each 32
    below its small letter; every other code unit (the sharp s, the micro
    sign and y-diaeresis included) stays as it is, and no special casing
    applies. *)
Definition lower_char (c : ascii) : ascii :=
  let n := N_of_ascii c in
  if capital_code n then ascii_of_N (n + 32) else c.

Fixpoint toLowerCase (s : string) : string :=
  match s with
  | EmptyString => EmptyString
  | String c rest => String (lower_char c) (toLowerCase rest)
  end.

(** The last three lines of the comparator, on the outcomes of
    [aValue < bValue] and [aValue > bValue]. *)
Definition by_direction (sortDirection : SortDirection) (lt gt : bool) : Z :=
  if lt then (if decide (sortDirection = asc) then -1 else 1)%Z
  else if gt then (if decide (sortDirection = asc) then 1 else -1)%Z
  else 0%Z.

(** The comparator when [a[sortField]] is a string: the empty string is the
    one falsy string, so [!aValue] asks whether [aValue] is empty; then both
    sides go through [String(...).toLowerCase()] and are compared as
    strings, code unit by code unit. *)
Definition compare_strings (sortDirection : SortDirection) (aValue bValue : string) : Z :=
  if String.eqb aValue EmptyString then 1%Z
  else if String.eqb bValue EmptyString then (-1)%Z
  else
    let aValue := toLowerCase aValue in
    let bValue := toLowerCase bValue in
    by_direction sortDirection (String.ltb aValue bValue) (String.ltb bValue aValue).

(** The comparator when [a[sortField]] is a [Date]: an object is never
    falsy, so both guards fall through; then both sides go through
    [new Date(...).getTime()] and are compared as numbers. *)
Definition compare_dates (sortDirection : SortDirection) (aValue bValue : Z) : Z :=
  by_direction sortDirection (aValue <? bValue)%Z (bValue <? aValue)%Z.

(** The arrow function handed to [sort], with [a[sortField]] read off the
    record for each of the four fields. *)
Definition compareFn (sortField : SortField.t) (sortDirection : SortDirection)
    (a b : Job) : Z :=
  match sortField with
  | SortField.company => compare_strings sortDirection (company a) (company b)
  | SortField.position => compare_strings sortDirection (position a) (position b)
  | SortField.status =>
      compare_strings sortDirection (status_name (status a)) (status_name (status b))
  | SortField.createdAt => compare_dates sortDirection (createdAt a) (createdAt b)
  end.

(** [Array.prototype.sort(comparefn)].  The language asks for a stable sort
    and, when the comparator is not a consistent one, leaves the order to
    the engine.  Engines put their question to the comparator in one of two
    ways when a new element meets one already placed before it: V8 and
    JavaScriptCore ask whether [comparefn(new, earlier) < 0], SpiderMonkey
    asks whether [comparefn(earlier, new) > 0]. *)
Inductive Engine : Type :=
  | NewFirst
  | EarlierFirst.

Section ArraySort.
Context {A : Type} (engine : Engine) (comparefn : A -> A -> Z).

(** The new element has to move in front of the earlier one. *)
Definition moves_in_front (new earlier : A) : bool :=
  match engine with
  | NewFirst => (comparefn new earlier <? 0)%Z
  | EarlierFirst => (comparefn earlier new >? 0)%Z
  end.

(** The stable insertion sort, the engines' own way with a short array:
    the elements are taken left to right and a new one moves towards the
    front as long as the engine's question is answered yes.  The sorted
    prefix is kept back to front.  When the answers form a strict weak
    order every stable sort returns the same array, whatever its strategy
    ([ordered_stable_unique]). *)
Fixpoint insert_back (pivot : A) (sorted_rev : list A) : list A :=
  match sorted_rev with
  | [] => [pivot]
  | y :: rest =>
      if moves_in_front pivot y then y :: insert_back pivot rest
      else pivot :: sorted_rev
  end.

Definition Array_sort (l : list A) : list A :=
  reverse (fold_left (fun sorted_rev x => insert_back x sorted_rev) l []).

(** No element is put in front of one that stands before it. *)
Definition ordered (l : list A) : Prop :=
  StronglySorted (fun x y => (comparefn y x <? 0)%Z = false) l.
End ArraySort.

(** [sortedJobs]: [[...jobs].sort((a, b) => ...)], on a given engine. *)
Definition sortedJobs (engine : Engine)
    (sortField : SortField.t) (sortDirection : SortDirection)
    (jobs : list Job) : list Job :=
  Array_sort engine (compareFn sortField sortDirection) jobs.

(** [comparefn(a, b) < 0]: the comparator puts [a] in front of [b]. *)
Definition goes_before (sortField : SortField.t) (sortDirection : SortDirection)
    (a b : Job) : bool :=
  (compareFn sortField sortDirection a b <? 0)%Z.

(** Neither record is put in front of the other. *)
Definition tied (sortField : SortField.t) (sortDirection : SortDirection)
    (a b : Job) : bool :=
  negb (goes_before sortField sortDirection a b)
  && negb (goes_before sortField sortDirection b a).

(** A sequence is in order when no record is put in front of a record that
    stands before it. *)
Fixpoint in_order (sortField : SortField.t) (sortDirection : SortDirection)
    (l : list Job) : bool :=
  match l with
  | [] => true
  | x :: rest =>
      forallb (fun y => negb (goes_before sortField sortDirection y x)) rest
      && in_order sortField sortDirection rest
  end.

(** The guard [!aValue] of the comparator, per field: only a string can be
    falsy, and only the empty one; a status key is never empty. *)
Definition missing (sortField : SortField.t) (j : Job) : bool :=
  match sortField with
  | SortField.company => String.eqb (company j) EmptyString
  | SortField.position => String.eqb (position j) EmptyString
  | SortField.status => false
  | SortField.createdAt => false
  end.

(** Two characters that are the same letter in either case, or equal: the
    capital stands 32 below the small letter, for A-Z and for the letters
    192-222 but the multiplication sign. *)
Definition same_letter (c1 c2 : ascii) : bool :=
  let n1 := N_of_ascii c1 in
  let n2 := N_of_ascii c2 in
  let capital_of (big small : N) : bool :=
    ((small =? big + 32)
     && ((65 <=? big) && (big <=? 90)
         || (192 <=? big) && (big <=? 222) && negb (big =? 215)))%N in
  (n1 =? n2)%N || capital_of n1 n2 || capital_of n2 n1.

(** Two strings that differ at most in the case of their letters. *)
Fixpoint eq_ignore_case (s1 s2 : string) : bool :=
  match s1, s2 with
  | EmptyString, EmptyString => true
  | String c1 r1, String c2 r2 => same_letter c1 c2 && eq_ignore_case r1 r2
  | _, _ => false
  end.

(** A text without capital letters. *)
Fixpoint no_upper (s : string) : bool :=
  match s with
  | EmptyString => true
  | String c rest => negb (capital_code (N_of_ascii c)) && no_upper rest
  end.

(** The text of a string field ([None] for [createdAt]). *)
Definition text_of (sortField : SortField.t) (j : Job) : option string :=
  match sortField with
  | SortField.company => Some (company j)
  | SortField.position => Some (position j)
  | SortField.status => Some (status_name (status j))
  | SortField.createdAt => None
  end.

(** ** The [jobs] table and the mutation layer *)

Module Schema.

(** A row of [pgTable("jobs", ...)]: a [notNull()] column always holds a
    value, the others may be NULL. *)
Record JobsRow : Type := mkRow {
  id : string;
  userId : string;
  company : string;
  position : string;
  status : JobStatus;
  url : option string;
  salary : option string;
  jobDescription : option string;
  note : option string;
  createdAt : Z
}.

(** What an insert into [jobs] may give: the columns that are [notNull()]
    and have no default are required, every other one is optional. *)
Record NewJob : Type := mkNew {
  new_id : option string;
  new_userId : string;
  new_company : string;
  new_position : string;
  new_status : option JobStatus;
  new_url : option string;
  new_salary : option string;
  new_jobDescription : option string;
  new_note : option string;
  new_createdAt : option Z
}.

(** The insert with the column defaults of the table: [defaultRandom()] for
    [id] (the generated value is [fresh]), [default("APPLYING")] for
    [status], [defaultNow()] for [created_at] (the clock reads [now]). *)
Definition insert_row (fresh : string) (now : Z) (v : NewJob) : JobsRow :=
  {| id := default fresh (new_id v);
     userId := new_userId v;
     company := new_company v;
     position := new_position v;
     status := default APPLYING (new_status v);
     url := new_url v;
     salary := new_salary v;
     jobDescription := new_jobDescription v;
     note := new_note v;
     createdAt := default now (new_createdAt v) |}.

(** Modelled from the spec: the error kinds of the mutation layer, which
    the sources do not declare. *)
Inductive Error : Type :=
  | ValidationError
  | NotFound
  | UnknownStatus
  | AuthError
  | StoreError.

(** Modelled from the spec: the [optionalFields] argument of [createJob],
    one entry per nullable column a user fills in. *)
Record OptionalFields : Type := mkOpt {
  opt_url : option string;
  opt_salary : option string;
  opt_jobDescription : option string;
  opt_note : option string
}.

(** Modelled from the spec: [createJob] of the mutation layer is missing
    from the sources (no router writes to [jobs]).  It fails with
    [ValidationError] if company or position is empty; otherwise it
    persists a new record, leaving status and creation time to the column
    defaults, and returns the persisted record with its generated
    identifier.  The store is the list of rows; [fresh] and [now] are the
    identifier and the clock reading the database supplies. *)
Definition createJob (fresh : string) (now : Z) (rows : list JobsRow)
    (ownerId company position : string) (optionalFields : OptionalFields)
  : Error + (JobsRow * list JobsRow) :=
  if String.eqb company EmptyString || String.eqb position EmptyString
  then inl ValidationError
  else
    let row :=
      insert_row fresh now
        {| new_id := None;
           new_userId := ownerId;
           new_company := company;
           new_position := position;
           new_status := None;
           new_url := opt_url optionalFields;
           new_salary := opt_salary optionalFields;
           new_jobDescription := opt_jobDescription optionalFields;
           new_note := opt_note optionalFields;
           new_createdAt := None |} in
    inr (row, rows ++ [row]).

(** Modelled from the spec: [changeStatus] on a stored row, missing from
    the sources, which have the update only as the spread expression on a
    displayed job ([set_status]); it replaces the status and nothing else. *)
Definition changeStatus (record : JobsRow) (newStatus : JobStatus) : JobsRow :=
  {| id := id record;
     userId := userId record;
     company := company record;
     position := position record;
     status := newStatus;
     url := url record;
     salary := salary record;
     jobDescription := jobDescription record;
     note := note record;
     createdAt := createdAt record |}.

(** Modelled from the spec: the lookup of [updateStatus], missing from the
    sources; the row is the record [recordId] and belongs to
    [requesterId]. *)
Definition owned_by (recordId requesterId : string) (r : JobsRow) : bool :=
  String.eqb (id r) recordId && String.eqb (userId r) requesterId.

(** Modelled from the spec: [updateStatus] of the mutation layer is missing
    from the sources ([handleStatusChange] marks it as still to be
    written).  It fails with [NotFound] if no record with that identifier is
    owned by the requester; otherwise it applies [changeStatus], persists
    the result and returns the updated record. *)
Definition updateStatus (rows : list JobsRow) (recordId : string)
    (newStatus : JobStatus) (requesterId : string)
  : Error + (JobsRow * list JobsRow) :=
  match List.find (owned_by recordId requesterId) rows with
  | None => inl NotFound
  | Some record =>
      inr (changeStatus record newStatus,
           (fun r => if owned_by recordId requesterId r
                     then changeStatus r newStatus else r) <$> rows)
  end.

(** Modelled from the spec: the query layer, missing from the sources,
    hands the views a stored row as an [interface Job] value. *)
Definition to_job (r : JobsRow) : Job :=
  mkJob (id r) (company r) (position r) (status r) (url r) (salary r) (note r)
        (createdAt r).

End Schema.

(** [pgEnum("job_status", [...])]: the values a stored status may take, in
    the order they are declared. *)
Definition jobStatusEnum : list string :=
  [ "APPLYING"; "APPLIED"; "FOR_INTERVIEW"; "INTERVIEWING"; "OFFER"; "REJECTED";
    "NO_RESPONSE"; "WITHDRAW"; "HIRED"; "NEGOTIATING"; "ON_HOLD" ].

(** ** What the views render *)

(** [STATUS_CONFIG[status]]: the entry under the key, [None] for
    [undefined]. *)
Definition config_of (status : JobStatus) : option StatusMeta :=
  snd <$> List.find (fun entry => bool_decide (fst entry = status)) STATUS_CONFIG.

(** Truthiness of a [string | null | undefined] value: [null], [undefined]
    and the empty string are falsy. *)
Definition truthy (v : option string) : bool :=
  match v with
  | Some s => negb (String.eqb s EmptyString)
  | None => false
  end.

(** One entry of a status menu: its text and the call a click makes. *)
Record MenuItem : Type := mkItem {
  item_text : string;
  item_call : string * JobStatus
}.

(** The [DropdownMenuContent] of a card or of a table row:
    [(Object.keys(STATUS_CONFIG) as JobStatus[]).map(...)], each entry
    reading [Move to {STATUS_CONFIG[status].label}].  Reading [.label] off
    [undefined] throws: the [None]. *)
Definition status_menu (job : Job) : option (list MenuItem) :=
  mapM (fun status =>
          config ← config_of status;
          Some (mkItem (String.append "Move to " (label config)) (id job, status)))
       columns.

(** What [JobCard] shows of a job, [onStatusChange] being given as the
    dashboard does: the company as title, the position, the salary line
    under [job.salary && ...], the badge of its status, the menu. *)
Record CardView : Type := mkCard {
  card_key : string;
  card_company : string;
  card_position : string;
  card_salary : option string;
  card_badge : StatusMeta;
  card_menu : list MenuItem
}.

Definition JobCard (job : Job) : option CardView :=
  config ← config_of (status job);
  menu ← status_menu job;
  Some (mkCard (id job) (company job) (position job)
               (if truthy (salary job) then salary job else None)
               config menu).

(** What [KanbanColumn] shows: the label of its status, the badge
    [jobs.length], one card per job, and the [No jobs yet] box under
    [jobs.length === 0]. *)
Record ColumnView : Type := mkColumn {
  column_key : JobStatus;
  column_label : string;
  column_badge : nat;
  column_cards : list CardView;
  column_placeholder : bool
}.

Definition KanbanColumn (status : JobStatus) (jobs : list Job) : option ColumnView :=
  config ← config_of status;
  cards ← mapM JobCard jobs;
  Some (mkColumn status (label config) (length jobs) cards
                 (Nat.eqb (length jobs) 0)).

(** [KanbanBoard]: [columns.map((status) => <KanbanColumn ...
    jobs={jobsByStatus[status]} />)]. *)
Definition KanbanBoard (jobs : list Job) : option (list ColumnView) :=
  grouped ← jobsByStatus jobs;
  mapM (fun status => column_jobs ← grouped !! status; KanbanColumn status column_jobs)
       columns.

(** A body row of [JobsTable]: company, position, status badge, the salary
    cell [job.salary || "-"] and the instant handed to [formatDate] (whose
    text depends on the locale data and time zone of the engine). *)
Record RowView : Type := mkRowView {
  row_key : string;
  row_company : string;
  row_position : string;
  row_badge : StatusMeta;
  row_salary : string;
  row_date : Z;
  row_menu : list MenuItem
}.

Definition TableRow (job : Job) : option RowView :=
  config ← config_of (status job);
  menu ← status_menu job;
  Some (mkRowView (id job) (company job) (position job) config
                  (if truthy (salary job) then default "-" (salary job) else "-")
                  (createdAt job) menu).

(** The [TableBody]: the one row [No jobs found. ...] under
    [sortedJobs.length === 0], else a row per sorted job. *)
Inductive TableBody : Type :=
  | NoJobsFound
  | TableRows (rows : list RowView).

Definition JobsTable_body (engine : Engine) (st : SortState) (jobs : list Job)
  : option TableBody :=
  let sorted := sortedJobs engine (sortField st) (sortDirection st) jobs in
  if Nat.eqb (length sorted) 0 then Some NoJobsFound
  else TableRows <$> mapM TableRow sorted.

(** The four stats cards of [DashboardPage]: [jobs.length] and
    [jobs.filter((j) => j.status === ...).length] for three statuses. *)
Record Stats : Type := mkStats {
  stat_total : nat;
  stat_interviewing : nat;
  stat_offers : nat;
  stat_hired : nat
}.

Definition stats_cards (jobs : list Job) : Stats :=
  mkStats (length jobs)
          (length (filter (fun j => status j = INTERVIEWING) jobs))
          (length (filter (fun j => status j = OFFER) jobs))
          (length (filter (fun j => status j = HIRED) jobs)).

(** [DashboardBreadcrumbs] *)
Module Breadcrumbs.

(** [interface BreadccrumbsItem] *)
Record Item : Type := mkCrumbItem {
  label : string;
  href : option string
}.

(** What is rendered inside the [BreadcrumbList]. *)
Inductive Crumb : Type :=
  | Separator
  | Link (href label : string)
  | Page (label : string).

(** [item.href ? <BreadcrumbLink href=...> : <BreadcrumbPage>] *)
Definition crumb_of (item : Item) : Crumb :=
  if truthy (href item) then Link (default EmptyString (href item)) (label item)
  else Page (label item).

(** [items.map((item, index) => <Fragment> {index > 0 && <Separator />}
    <BreadcrumbItem>...</BreadcrumbItem> </Fragment>)] *)
Definition DashboardBreadcrumbs (items : list Item) : list Crumb :=
  concat (imap (fun index item =>
                  (if Nat.ltb 0 index then [Separator] else []) ++ [crumb_of item])
               items).

End Breadcrumbs.

(** No two records of the sequence are tied under the sort field. *)
Fixpoint no_ties (sortField : SortField.t) (l : list Job) : bool :=
  match l with
  | [] => true
  | x :: rest =>
      forallb (fun y => negb (tied sortField asc x y)) rest
      && no_ties sortField rest
  end.

(** * Properties *)

(** ** Kanban grouping *)

Section KanbanFacts.
Implicit Types (jobs : list Job) (grouped : gmap JobStatus (list Job)).
Implicit Types (s : JobStatus) (job : Job).

Lemma columns_NoDup : NoDup columns.
Proof. apply (bool_decide_unpack _). vm_compute. exact I. Qed.

Lemma columns_complete s : s ∈ columns.
Proof. destruct s; apply (bool_decide_unpack _); vm_compute; exact I. Qed.

Lemma grouped_init_lookup s : grouped_init !! s = Some [].
Proof. destruct s; reflexivity. Qed.

Lemma push_job_lookup grouped job bucket0 :
  grouped !! status job = Some bucket0 ->
  exists grouped',
    push_job grouped job = Some grouped'
    /\ forall s, grouped' !! s =
         (fun b => b ++ filter (fun j => status j = s) [job]) <$> grouped !! s.
Proof.
  intros Hb. unfold push_job. rewrite Hb. eexists; split; [reflexivity |].
  intros s. destruct (decide (status job = s)) as [<- | Hne].
  - rewrite lookup_insert_eq, Hb. simpl.
    rewrite filter_cons_True by reflexivity. reflexivity.
  - rewrite lookup_insert_ne by assumption.
    rewrite filter_cons_False by assumption. rewrite filter_nil.
    destruct (grouped !! s); simpl; [rewrite app_nil_r |]; reflexivity.
Qed.

(** The loop, started with every key present, ends normally; each array
    has grown by the records of its status, in input order. *)
Lemma forEach_spec jobs : forall grouped,
  (forall s, is_Some (grouped !! s)) ->
  exists grouped',
    forEach jobs grouped = Some grouped'
    /\ forall s, grouped' !! s =
         (fun b => b ++ filter (fun j => status j = s) jobs) <$> grouped !! s.
Proof.
  induction jobs as [| job rest IH]; intros grouped Hall; simpl.
  - exists grouped; split; [reflexivity |]. intros s.
    destruct (grouped !! s); simpl; [rewrite app_nil_r |]; reflexivity.
  - destruct (Hall (status job)) as [b0 Hb0].
    destruct (push_job_lookup grouped job b0 Hb0) as (g1 & Hpush & Hg1).
    rewrite Hpush.
    destruct (IH g1) as (g2 & Hrun & Hg2).
    { intros s. rewrite Hg1. destruct (Hall s) as [b ->]. simpl. eauto. }
    exists g2; split; [assumption |]. intros s.
    rewrite Hg2, Hg1. destruct (grouped !! s) as [b |]; simpl; [| reflexivity].
    f_equal. rewrite <- app_assoc. f_equal.
    change (job :: rest) with ([job] ++ rest). rewrite filter_app. reflexivity.
Qed.

Lemma jobsByStatus_lookup jobs :
  exists grouped,
    jobsByStatus jobs = Some grouped
    /\ forall s, grouped !! s = Some (filter (fun j => status j = s) jobs).
Proof.
  destruct (forEach_spec jobs grouped_init) as (g & Hrun & Hg).
  { intros s. rewrite grouped_init_lookup. eauto. }
  exists g; split; [exact Hrun |]. intros s.
  rewrite Hg, grouped_init_lookup. reflexivity.
Qed.

(** Filtering a collection by each value of a duplicate-free list of
    statuses and gluing the results gives a rearrangement of the records
    whose status is in the list. *)
Lemma filter_status_split jobs s (ss : list JobStatus) :
  s ∉ ss ->
  filter (fun j => status j = s) jobs ++ filter (fun j => status j ∈ ss) jobs
  ≡ₚ filter (fun j => status j ∈ s :: ss) jobs.
Proof.
  intros Hs. induction jobs as [| job rest IH]; [reflexivity |].
  rewrite !filter_cons.
  destruct (decide (status job = s)) as [Heq | Hne].
  - rewrite decide_False by (rewrite Heq; exact Hs).
    rewrite decide_True by (rewrite Heq; left).
    simpl. apply Permutation_cons; [reflexivity | exact IH].
  - destruct (decide (status job ∈ ss)) as [Hin | Hout].
    + rewrite decide_True by (right; exact Hin).
      rewrite <- Permutation_middle.
      apply Permutation_cons; [reflexivity | exact IH].
    + rewrite decide_False; [exact IH |].
      intros Hc. apply elem_of_cons in Hc as [Hc | Hc]; contradiction.
Qed.

Lemma concat_filter_status jobs (ss : list JobStatus) :
  NoDup ss ->
  concat ((fun s => filter (fun j => status j = s) jobs) <$> ss)
  ≡ₚ filter (fun j => status j ∈ ss) jobs.
Proof.
  induction 1 as [| s ss Hs Hnd IH]; simpl.
  - induction jobs as [| job rest IHj]; [reflexivity |].
    rewrite filter_cons, decide_False; [exact IHj | apply not_elem_of_nil].
  - rewrite IH. apply filter_status_split, Hs.
Qed.

Lemma filter_all_statuses jobs : filter (fun j => status j ∈ columns) jobs = jobs.
Proof.
  induction jobs as [| job rest IH]; [reflexivity |].
  rewrite filter_cons, decide_True by apply columns_complete. by rewrite IH.
Qed.

Lemma sum_list_length_concat (ls : list (list Job)) :
  sum_list (length <$> ls) = length (concat ls).
Proof.
  induction ls as [| l ls IH]; [reflexivity |].
  rewrite fmap_cons. cbn [sum_list concat]. rewrite length_app. f_equal. exact IH.
Qed.
End KanbanFacts.

Example jobsByStatus_mock :
  (fun grouped => (fun s => id <$> bucket grouped s) <$> columns)
    <$> jobsByStatus MOCK_JOBS
  = Some [[]; ["2"]; ["3"]; ["1"]; ["4"]; []; []; []; ["5"]; []; []].
Proof. vm_compute. reflexivity. Qed.

(** C1. Kanban grouping is a partition.  For every input collection the
    grouping ends normally, and in its result: the lengths of the eleven
    buckets add up to the length of the input; the buckets glued together
    are a rearrangement of the input (each occurrence of a record is in the
    buckets once); and a record is in the bucket of a status exactly when it
    is an input record holding that status, so it is in one bucket only. *)
Theorem kanban_partition (jobs : list Job) :
  exists grouped,
    jobsByStatus jobs = Some grouped
    /\ length columns = 11
    /\ total_count grouped = length jobs
    /\ concat (bucket grouped <$> columns) ≡ₚ jobs
    /\ forall (s : JobStatus) (job : Job),
         job ∈ bucket grouped s <-> job ∈ jobs /\ status job = s.
Proof.
  destruct (jobsByStatus_lookup jobs) as (grouped & Hrun & Hlook).
  assert (Hbucket : forall s, bucket grouped s = filter (fun j => status j = s) jobs).
  { intros s. unfold bucket. apply lookup_total_correct, Hlook. }
  assert (Hperm : concat (bucket grouped <$> columns) ≡ₚ jobs).
  { erewrite list_fmap_ext; [| intros i s _; apply Hbucket].
    rewrite concat_filter_status by apply columns_NoDup.
    rewrite filter_all_statuses. reflexivity. }
  exists grouped. split; [exact Hrun |]. split; [reflexivity |].
  split; [| split; [exact Hperm |]].
  - unfold total_count.
    rewrite <- (Permutation_length Hperm), <- sum_list_length_concat.
    rewrite <- list_fmap_compose. reflexivity.
  - intros s job. rewrite Hbucket, list_elem_of_filter. tauto.
Qed.

(** C2. For every input collection the grouping returns a mapping whose key
    set is the eleven statuses, no key absent, and the bucket of each status
    is the input with the records of other statuses struck out: the records
    of that status, in the order the input has them. *)
Theorem kanban_keys_and_order (jobs : list Job) :
  exists grouped,
    jobsByStatus jobs = Some grouped
    /\ dom grouped = list_to_set columns
    /\ length columns = 11
    /\ NoDup columns
    /\ (forall s : JobStatus, s ∈ columns /\ is_Some (grouped !! s))
    /\ (forall s : JobStatus,
          grouped !! s = Some (filter (fun j => status j = s) jobs))
    /\ (forall s : JobStatus, bucket grouped s `sublist_of` jobs).
Proof.
  destruct (jobsByStatus_lookup jobs) as (grouped & Hrun & Hlook).
  exists grouped. split; [exact Hrun |].
  split.
  { apply set_eq. intros s. rewrite elem_of_dom, Hlook, elem_of_list_to_set.
    split; [intros _; apply columns_complete | eauto]. }
  split; [reflexivity |]. split; [apply columns_NoDup |].
  split; [intros s; split; [apply columns_complete | rewrite Hlook; eauto] |].
  split; [exact Hlook |].
  intros s. unfold bucket. rewrite (lookup_total_correct _ _ _ (Hlook s)).
  apply sublist_filter.
Qed.

(** ** The array sort *)

Section OrderedFacts.
Context {A : Type} (comparefn : A -> A -> Z).

(** What the comparator means by a negative answer. *)
Let lt (x y : A) : bool := (comparefn x y <? 0)%Z.

Lemma filter_all (P : A -> Prop) `{!forall x, Decision (P x)} l :
  Forall P l -> filter P l = l.
Proof.
  induction 1 as [| x l Hx _ IH]; [reflexivity |].
  rewrite filter_cons, decide_True by exact Hx. rewrite IH. reflexivity.
Qed.

Lemma filter_none (P : A -> Prop) `{!forall x, Decision (P x)} l :
  Forall (fun x => ~ P x) l -> filter P l = [].
Proof.
  induction 1 as [| x l Hx _ IH]; [reflexivity |].
  rewrite filter_cons, decide_False by exact Hx. exact IH.
Qed.

(** In an ordered list, the elements that every other element is put in
    front of form the tail. *)
Lemma ordered_split (T : A -> Prop) `{!forall x, Decision (T x)} l :
  (forall t f, T t -> ~ T f -> lt t f = true) ->
  ordered comparefn l ->
  l = filter T l ++ filter (fun x => ~ T x) l.
Proof.
  intros Hfront. unfold ordered. induction l as [| x l IH]; intros Hord.
  - reflexivity.
  - apply StronglySorted_cons in Hord as [Hx Hl].
    rewrite !filter_cons. destruct (decide (T x)) as [Hin | Hout].
    + rewrite decide_False by tauto. simpl. f_equal. exact (IH Hl).
    + rewrite decide_True by assumption.
      assert (Hnone : Forall (fun y => ~ T y) l).
      { eapply Forall_impl; [exact Hx |]. intros y Hyx Hy. simpl in Hyx.
        pose proof (Hfront y x Hy Hout) as Hc. unfold lt in Hc. congruence. }
      clear IH Hx Hl.
      assert (filter T l = [] /\ filter (fun y => ~ T y) l = l) as [-> ->];
        [| reflexivity].
      induction Hnone as [| y l Hy _ [IH1 IH2]]; [split; reflexivity |].
      rewrite !filter_cons, decide_False, decide_True by assumption.
      rewrite IH1, IH2. split; reflexivity.
Qed.

(** An ordered arrangement that keeps tied elements in a given order is the
    only one. *)
Lemma ordered_stable_unique l1 :
  (forall x y, lt x y = true -> lt y x = false) ->
  forall l2,
  ordered comparefn l1 -> ordered comparefn l2 -> l1 ≡ₚ l2 ->
  (forall a, filter (fun x => lt a x = false /\ lt x a = false) l1
             = filter (fun x => lt a x = false /\ lt x a = false) l2) ->
  l1 = l2.
Proof.
  intros lt_asym.
  assert (Hirr : forall x, lt x x = false).
  { intros x. destruct (lt x x) eqn:E; [| reflexivity].
    rewrite (lt_asym x x E) in E. discriminate. }
  unfold ordered. fold lt.
  induction l1 as [| x r1 IH]; intros l2 H1 H2 Hperm Hties.
  - apply Permutation_nil in Hperm. congruence.
  - destruct l2 as [| y r2]; [symmetry in Hperm; apply Permutation_nil in Hperm; congruence |].
    apply StronglySorted_cons in H1 as [Hx H1], H2 as [Hy H2].
    rewrite Forall_forall in Hx, Hy.
    assert (Hyx : lt y x = false).
    { assert (Hin : y ∈ x :: r1) by (rewrite Hperm; left).
      apply elem_of_cons in Hin as [-> | Hin]; [apply Hirr | apply Hx, Hin]. }
    assert (Hxy : lt x y = false).
    { assert (Hin : x ∈ y :: r2) by (rewrite <- Hperm; left).
      apply elem_of_cons in Hin as [-> | Hin]; [apply Hirr | apply Hy, Hin]. }
    assert (x = y) as <-.
    { pose proof (Hties x) as Hx0. rewrite !filter_cons in Hx0.
      rewrite decide_True in Hx0 by (split; apply Hirr).
      rewrite decide_True in Hx0 by (split; assumption). congruence. }
    f_equal. apply IH; [exact H1 | exact H2 | |].
    + apply Permutation_cons_inv in Hperm. exact Hperm.
    + intros a. pose proof (Hties a) as Ha. rewrite !filter_cons in Ha.
      destruct (decide (lt a x = false /\ lt x a = false)); congruence.
Qed.
End OrderedFacts.

Section ArraySortFacts.
Context {A : Type} (engine : Engine) (comparefn : A -> A -> Z).

(** The question the engine asks, and what the comparator means by a
    negative answer. *)
Let q (x y : A) : bool := moves_in_front engine comparefn x y.
Let lt (x y : A) : bool := (comparefn x y <? 0)%Z.
Let ins (sorted_rev : list A) (x : A) : list A :=
  insert_back engine comparefn x sorted_rev.

Lemma insert_back_perm x r : insert_back engine comparefn x r ≡ₚ x :: r.
Proof.
  induction r as [| y r IH]; simpl; [reflexivity |].
  destruct (moves_in_front engine comparefn x y); [| reflexivity].
  rewrite IH. apply perm_swap.
Qed.

Lemma fold_insert_perm l : forall acc, fold_left ins l acc ≡ₚ l ++ acc.
Proof.
  induction l as [| x l IH]; intros acc; simpl; [reflexivity |].
  rewrite IH. unfold ins. rewrite insert_back_perm.
  symmetry. apply Permutation_middle.
Qed.

Lemma Array_sort_perm l : Array_sort engine comparefn l ≡ₚ l.
Proof.
  unfold Array_sort. rewrite reverse_Permutation.
  fold ins. rewrite fold_insert_perm, app_nil_r. reflexivity.
Qed.

(** Filtering commutes with the insertion when the kept elements are not
    moved in front of one another. *)
Lemma filter_insert_back (P : A -> Prop) `{!forall x, Decision (P x)} x r :
  (forall y, P x -> P y -> q x y = false) ->
  filter P (insert_back engine comparefn x r) = filter P (x :: r).
Proof.
  intros Hties. induction r as [| y r IH]; simpl; [reflexivity |].
  fold (q x y). destruct (q x y) eqn:Hxy; [| reflexivity].
  rewrite (filter_cons P y), IH, !(filter_cons P x), (filter_cons P y).
  destruct (decide (P x)) as [Hx |], (decide (P y)) as [Hy |]; try reflexivity.
  rewrite (Hties y Hx Hy) in Hxy. discriminate.
Qed.

Lemma filter_fold_insert (P : A -> Prop) `{!forall x, Decision (P x)} l :
  (forall x y, P x -> P y -> q x y = false) ->
  forall acc,
    filter P (fold_left ins l acc) = reverse (filter P l) ++ filter P acc.
Proof.
  intros Hties. induction l as [| x l IH]; intros acc; simpl; [reflexivity |].
  rewrite IH. unfold ins.
  rewrite filter_insert_back by (intros y; apply Hties).
  rewrite !(filter_cons P x). destruct (decide (P x)); [| reflexivity].
  rewrite reverse_cons, <- app_assoc. reflexivity.
Qed.

(** Stability: elements that are not moved in front of one another keep
    the order they have in the input. *)
Lemma Array_sort_stable (P : A -> Prop) `{!forall x, Decision (P x)} l :
  (forall x y, P x -> P y -> q x y = false) ->
  filter P (Array_sort engine comparefn l) = filter P l.
Proof.
  intros Hties. unfold Array_sort. fold ins.
  rewrite filter_reverse, filter_fold_insert by exact Hties.
  rewrite filter_nil, app_nil_r. apply reverse_involutive.
Qed.

(** An input in which the engine would move no element in front of one
    standing before it comes back as it is. *)
Lemma fold_insert_settled l : forall acc,
  StronglySorted (fun x y => q y x = false) l ->
  match acc with
  | [] => True
  | p :: _ => Forall (fun y => q y p = false) l
  end ->
  fold_left ins l acc = reverse l ++ acc.
Proof.
  induction l as [| x l IH]; intros acc Hord Hhead; simpl; [reflexivity |].
  apply StronglySorted_cons in Hord as [Hx Hl].
  assert (Hins : ins acc x = x :: acc).
  { unfold ins. destruct acc as [| p acc]; simpl; [reflexivity |].
    apply Forall_cons in Hhead as [Hxp _]. fold (q x p). rewrite Hxp. reflexivity. }
  rewrite Hins, IH; [| exact Hl | exact Hx].
  rewrite reverse_cons, <- app_assoc. reflexivity.
Qed.

Lemma Array_sort_settled_id l :
  StronglySorted (fun x y => q y x = false) l -> Array_sort engine comparefn l = l.
Proof.
  intros Hord. unfold Array_sort. fold ins.
  rewrite fold_insert_settled by (exact Hord || exact I).
  rewrite app_nil_r. apply reverse_involutive.
Qed.

Section StrictWeakOrder.
Hypothesis lt_asym : forall x y, lt x y = true -> lt y x = false.
Hypothesis lt_negtrans :
  forall x y z, lt x z = true -> lt x y = true \/ lt y z = true.
(** The engine moves [x] in front of [y] only if the comparator does not
    put [y] in front of [x], and whenever it puts [x] in front of [y]. *)
Hypothesis q_sound : forall x y, q x y = true -> lt y x = false.
Hypothesis q_complete : forall x y, q x y = false -> lt x y = false.

(** The sorted prefix, read back to front. *)
Let ordered_rev (r : list A) : Prop :=
  StronglySorted (fun y x => lt y x = false) r.

Lemma insert_back_ordered x r :
  ordered_rev r -> ordered_rev (insert_back engine comparefn x r).
Proof.
  unfold ordered_rev. induction r as [| y r IH]; intros Hr; simpl.
  - repeat constructor.
  - apply StronglySorted_cons in Hr as [Hy Hr].
    fold (q x y). destruct (q x y) eqn:Hxy.
    + apply StronglySorted_cons. split; [| exact (IH Hr)].
      rewrite insert_back_perm. constructor; [apply q_sound, Hxy | exact Hy].
    + apply q_complete in Hxy.
      apply StronglySorted_cons. split.
      * constructor; [exact Hxy |].
        eapply Forall_impl; [exact Hy |]. intros z Hyz. simpl in Hyz.
        destruct (lt x z) eqn:Hxz; [| reflexivity].
        destruct (lt_negtrans x y z Hxz) as [H | H]; congruence.
      * apply StronglySorted_cons. split; assumption.
Qed.

Lemma fold_insert_ordered_rev l : forall acc,
  ordered_rev acc -> ordered_rev (fold_left ins l acc).
Proof.
  induction l as [| x l IH]; intros acc Hacc; simpl; [exact Hacc |].
  apply IH, insert_back_ordered, Hacc.
Qed.

Lemma ordered_reverse r : ordered_rev r -> ordered comparefn (reverse r).
Proof.
  unfold ordered_rev, ordered. fold lt. induction r as [| y r IH]; intros Hr.
  - constructor.
  - apply StronglySorted_cons in Hr as [Hy Hr].
    rewrite reverse_cons. apply StronglySorted_app.
    split; [| split; [exact (IH Hr) | repeat constructor]].
    intros x1 x2 Hx1 Hx2. apply list_elem_of_singleton in Hx2 as ->.
    rewrite elem_of_reverse in Hx1.
    rewrite Forall_forall in Hy. apply Hy, Hx1.
Qed.

Lemma Array_sort_ordered l : ordered comparefn (Array_sort engine comparefn l).
Proof.
  unfold Array_sort. fold ins.
  apply ordered_reverse, fold_insert_ordered_rev. constructor.
Qed.

End StrictWeakOrder.


(** A class of elements that the engine moves in front of one another, and
    every other element in front of them, comes out with its input order
    turned round. *)
Section TopClass.
Context (M : A -> Prop) `{!forall x, Decision (M x)}.
Hypothesis q_top_top : forall x y, M x -> M y -> q x y = true.
Hypothesis q_top_other : forall m p, M m -> ~ M p -> q m p = false.
Hypothesis q_other_top : forall p m, ~ M p -> M m -> q p m = true.

Lemma insert_back_top_block x mb : forall pb,
  Forall M mb -> Forall (fun p => ~ M p) pb ->
  insert_back engine comparefn x (mb ++ pb)
  = if decide (M x) then mb ++ x :: pb
    else mb ++ insert_back engine comparefn x pb.
Proof.
  induction mb as [| m mb IH]; intros pb Hmb Hpb; simpl.
  - destruct (decide (M x)) as [Hx |]; [| reflexivity].
    destruct Hpb as [| p pb Hp _]; simpl; [reflexivity |].
    fold (q x p). rewrite (q_top_other x p Hx Hp). reflexivity.
  - apply Forall_cons in Hmb as [Hm Hmb]. fold (q x m).
    assert (q x m = true) as ->.
    { destruct (decide (M x)); [apply q_top_top | apply q_other_top]; assumption. }
    rewrite (IH pb Hmb Hpb). destruct (decide (M x)); reflexivity.
Qed.

Lemma fold_insert_top_block l : forall mb pb,
  Forall M mb -> Forall (fun p => ~ M p) pb ->
  exists pb',
    fold_left ins l (mb ++ pb) = (mb ++ filter M l) ++ pb'
    /\ Forall (fun p => ~ M p) pb'.
Proof.
  induction l as [| x l IH]; intros mb pb Hmb Hpb; simpl.
  - exists pb. rewrite app_nil_r. auto.
  - unfold ins at 2. rewrite (insert_back_top_block x mb pb Hmb Hpb).
    rewrite filter_cons. destruct (decide (M x)) as [Hx | Hx].
    + destruct (IH (mb ++ [x]) pb) as (pb' & Hrun & Hpb'); [| exact Hpb |].
      { apply Forall_app. split; [exact Hmb | repeat constructor; exact Hx]. }
      exists pb'. split; [| exact Hpb'].
      rewrite <- app_assoc in Hrun. simpl in Hrun. rewrite Hrun.
      rewrite <- !app_assoc. reflexivity.
    + apply (IH mb (insert_back engine comparefn x pb) Hmb).
      rewrite insert_back_perm. constructor; assumption.
Qed.

Lemma Array_sort_top_reversed l :
  filter M (Array_sort engine comparefn l) = reverse (filter M l).
Proof.
  unfold Array_sort. fold ins.
  destruct (fold_insert_top_block l [] []) as (pb' & Hrun & Hpb');
    [constructor | constructor |].
  simpl in Hrun. rewrite Hrun, filter_reverse, filter_app.
  rewrite (filter_none M pb' Hpb'), app_nil_r.
  rewrite filter_all; [reflexivity |].
  apply Forall_forall. intros x Hx. apply list_elem_of_filter in Hx. tauto.
Qed.
End TopClass.
End ArraySortFacts.

(** ** The comparator *)

Section StringOrder.
Lemma ascii_compare_refl c : Ascii.compare c c = Eq.
Proof. unfold Ascii.compare. apply N.compare_refl. Qed.

Lemma string_compare_refl s : String.compare s s = Eq.
Proof. induction s as [| c s IH]; simpl; [| rewrite ascii_compare_refl]; auto. Qed.

Lemma ascii_compare_trans c1 c2 c3 :
  Ascii.compare c1 c2 = Lt -> Ascii.compare c2 c3 = Lt -> Ascii.compare c1 c3 = Lt.
Proof. unfold Ascii.compare. rewrite !N.compare_lt_iff. lia. Qed.

Lemma string_compare_trans s1 : forall s2 s3,
  String.compare s1 s2 = Lt -> String.compare s2 s3 = Lt -> String.compare s1 s3 = Lt.
Proof.
  induction s1 as [| c1 s1 IH]; intros [| c2 s2] [| c3 s3]; simpl; try congruence.
  destruct (Ascii.compare c1 c2) eqn:E12; try discriminate;
    destruct (Ascii.compare c2 c3) eqn:E23; try discriminate; intros H12 H23.
  - apply Ascii.compare_eq_iff in E12, E23. subst.
    rewrite ascii_compare_refl. eauto.
  - apply Ascii.compare_eq_iff in E12. subst. rewrite E23. reflexivity.
  - apply Ascii.compare_eq_iff in E23. subst. rewrite E12. reflexivity.
  - rewrite (ascii_compare_trans _ _ _ E12 E23). reflexivity.
Qed.

Lemma string_ltb_asym s1 s2 : String.ltb s1 s2 = true -> String.ltb s2 s1 = false.
Proof.
  unfold String.ltb. rewrite (String.compare_antisym s2 s1).
  destruct (String.compare s1 s2); simpl; congruence.
Qed.

Lemma string_ltb_negtrans s1 s2 s3 :
  String.ltb s1 s3 = true -> String.ltb s1 s2 = true \/ String.ltb s2 s3 = true.
Proof.
  unfold String.ltb. intros H13.
  destruct (String.compare s1 s2) eqn:E12; [| left; reflexivity |].
  - apply String.compare_eq_iff in E12. subst. right. exact H13.
  - right. rewrite String.compare_antisym in E12.
    destruct (String.compare s2 s1) eqn:E21; try discriminate.
    destruct (String.compare s1 s3) eqn:E13; try discriminate.
    rewrite (string_compare_trans _ _ _ E21 E13). reflexivity.
Qed.
End StringOrder.

(** A comparator that sends the values failing [here] behind the others and
    orders the others by [L] asks a strict weak order of the sort. *)
Section MissingLast.
Context {X : Type} (here : X -> bool) (L : X -> X -> bool).
Hypothesis L_asym : forall x y, L x y = true -> L y x = false.
Hypothesis L_negtrans : forall x y z, L x z = true -> L x y = true \/ L y z = true.

Let front (a b : X) : bool := here a && (negb (here b) || L a b).

Lemma front_asym a b : front a b = true -> front b a = false.
Proof.
  unfold front. destruct (here a), (here b); simpl; try congruence.
  apply L_asym.
Qed.

Lemma front_negtrans a b c :
  front a c = true -> front a b = true \/ front b c = true.
Proof.
  unfold front. destruct (here a), (here b), (here c); simpl; auto.
Qed.
End MissingLast.

Section ComparatorFacts.
Implicit Types (f : SortField.t) (d : SortDirection) (a b c : Job).

(** The order of two present strings, by direction. *)
Let text_lt d (s1 s2 : string) : bool :=
  match d with
  | asc => String.ltb (toLowerCase s1) (toLowerCase s2)
  | desc => String.ltb (toLowerCase s2) (toLowerCase s1)
  end.

Let date_lt d (t1 t2 : Z) : bool :=
  match d with asc => (t1 <? t2)%Z | desc => (t2 <? t1)%Z end.

Lemma compare_strings_front d s1 s2 :
  (compare_strings d s1 s2 <? 0)%Z
  = negb (String.eqb s1 EmptyString) && (negb (negb (String.eqb s2 EmptyString)) || text_lt d s1 s2).
Proof.
  unfold compare_strings, by_direction, text_lt.
  destruct (String.eqb s1 EmptyString); [reflexivity |].
  destruct (String.eqb s2 EmptyString); [reflexivity |]. simpl.
  destruct (String.ltb (toLowerCase s1) (toLowerCase s2)) eqn:E12.
  - rewrite (string_ltb_asym _ _ E12). destruct d; reflexivity.
  - destruct (String.ltb (toLowerCase s2) (toLowerCase s1)); destruct d; reflexivity.
Qed.

Lemma compare_dates_front d t1 t2 :
  (compare_dates d t1 t2 <? 0)%Z = true && (negb true || date_lt d t1 t2).
Proof.
  unfold compare_dates, by_direction, date_lt. simpl.
  destruct (Z.ltb_spec t1 t2), (Z.ltb_spec t2 t1), d; simpl; try reflexivity; lia.
Qed.

Lemma text_lt_asym d s1 s2 : text_lt d s1 s2 = true -> text_lt d s2 s1 = false.
Proof. destruct d; apply string_ltb_asym. Qed.

Lemma text_lt_negtrans d s1 s2 s3 :
  text_lt d s1 s3 = true -> text_lt d s1 s2 = true \/ text_lt d s2 s3 = true.
Proof.
  destruct d; simpl; intros H.
  - apply string_ltb_negtrans, H.
  - apply or_comm. apply string_ltb_negtrans, H.
Qed.

Lemma date_lt_asym d t1 t2 : date_lt d t1 t2 = true -> date_lt d t2 t1 = false.
Proof. destruct d; simpl; intros H; apply Z.ltb_lt in H; apply Z.ltb_ge; lia. Qed.

Lemma date_lt_negtrans d t1 t2 t3 :
  date_lt d t1 t3 = true -> date_lt d t1 t2 = true \/ date_lt d t2 t3 = true.
Proof. destruct d; simpl; rewrite !Z.ltb_lt; lia. Qed.

Lemma goes_before_asym f d a b :
  goes_before f d a b = true -> goes_before f d b a = false.
Proof.
  unfold goes_before. destruct f; simpl;
    rewrite ?compare_strings_front, ?compare_dates_front.
  - apply (front_asym (fun s => negb (String.eqb s EmptyString)) (text_lt d)),
      text_lt_asym.
  - apply (front_asym (fun s => negb (String.eqb s EmptyString)) (text_lt d)),
      text_lt_asym.
  - apply (front_asym (fun s => negb (String.eqb s EmptyString)) (text_lt d)),
      text_lt_asym.
  - apply (front_asym (fun _ => true) (date_lt d)), date_lt_asym.
Qed.

Lemma goes_before_negtrans f d a b c :
  goes_before f d a c = true ->
  goes_before f d a b = true \/ goes_before f d b c = true.
Proof.
  unfold goes_before. destruct f; simpl;
    rewrite ?compare_strings_front, ?compare_dates_front.
  - apply (front_negtrans (fun s => negb (String.eqb s EmptyString)) (text_lt d)),
      text_lt_negtrans.
  - apply (front_negtrans (fun s => negb (String.eqb s EmptyString)) (text_lt d)),
      text_lt_negtrans.
  - apply (front_negtrans (fun s => negb (String.eqb s EmptyString)) (text_lt d)),
      text_lt_negtrans.
  - apply (front_negtrans (fun _ => true) (date_lt d)), date_lt_negtrans.
Qed.

Lemma status_name_nonempty (s : JobStatus) : String.eqb (status_name s) EmptyString = false.
Proof. destruct s; reflexivity. Qed.

(** The comparator puts a record holding a value in front of every record
    missing one, in both directions, and never the other way round. *)
Lemma goes_before_missing f d a b :
  missing f b = true -> goes_before f d a b = negb (missing f a).
Proof.
  unfold goes_before, missing. destruct f; simpl; try discriminate;
    intros Hb; rewrite compare_strings_front, Hb; simpl;
    rewrite andb_true_r; reflexivity.
Qed.

Lemma missing_not_before f d a b : missing f a = true -> goes_before f d a b = false.
Proof.
  unfold goes_before, missing. destruct f; simpl; try discriminate;
    intros Ha; rewrite compare_strings_front, Ha; reflexivity.
Qed.

Lemma in_order_ordered f d l :
  in_order f d l = true <-> ordered (compareFn f d) l.
Proof.
  unfold ordered. induction l as [| x l IH]; simpl.
  - split; [constructor | reflexivity].
  - rewrite andb_true_iff, IH, StronglySorted_cons, forallb_forall, Forall_forall.
    apply and_iff_compat_r. split; intros H y Hy.
    + apply list_elem_of_In in Hy. apply H in Hy.
      apply negb_true_iff in Hy. exact Hy.
    + apply negb_true_iff. apply H, list_elem_of_In, Hy.
Qed.

(** What each engine asks, in terms of the comparator's own order: the
    second engine moves a record missing the field in front of another
    such record as well. *)
Lemma compare_strings_positive d s1 s2 :
  (compare_strings d s2 s1 >? 0)%Z
  = (compare_strings d s1 s2 <? 0)%Z
    || (String.eqb s1 EmptyString && String.eqb s2 EmptyString).
Proof.
  unfold compare_strings, by_direction.
  destruct (String.eqb s1 EmptyString), (String.eqb s2 EmptyString);
    try reflexivity. simpl.
  destruct (String.ltb (toLowerCase s1) (toLowerCase s2)) eqn:E12.
  - rewrite (string_ltb_asym _ _ E12). destruct d; reflexivity.
  - destruct (String.ltb (toLowerCase s2) (toLowerCase s1)); destruct d; reflexivity.
Qed.

Lemma compare_dates_positive d t1 t2 :
  (compare_dates d t2 t1 >? 0)%Z = (compare_dates d t1 t2 <? 0)%Z.
Proof.
  unfold compare_dates, by_direction.
  destruct (Z.ltb_spec t1 t2), (Z.ltb_spec t2 t1), d; simpl; try reflexivity; lia.
Qed.

Lemma moves_in_front_jobs e f d x y :
  moves_in_front e (compareFn f d) x y
  = goes_before f d x y
    || (match e with NewFirst => false | EarlierFirst => true end
        && missing f x && missing f y).
Proof.
  unfold moves_in_front, goes_before. destruct e.
  - simpl. rewrite orb_false_r. reflexivity.
  - destruct f; simpl; rewrite ?compare_strings_positive, ?compare_dates_positive,
      ?status_name_nonempty, ?orb_false_r; reflexivity.
Qed.

Lemma moves_in_front_sound e f d x y :
  moves_in_front e (compareFn f d) x y = true -> goes_before f d y x = false.
Proof.
  rewrite moves_in_front_jobs. intros H. apply orb_true_iff in H as [H | H].
  - apply goes_before_asym, H.
  - apply andb_true_iff in H as [_ Hy]. apply missing_not_before, Hy.
Qed.

Lemma moves_in_front_complete e f d x y :
  moves_in_front e (compareFn f d) x y = false -> goes_before f d x y = false.
Proof.
  rewrite moves_in_front_jobs. intros H. apply orb_false_iff in H as [H _]. exact H.
Qed.

Lemma sortedJobs_ordered e f d jobs :
  ordered (compareFn f d) (sortedJobs e f d jobs).
Proof.
  apply Array_sort_ordered.
  - intros x y z. apply (goes_before_negtrans f d x y z).
  - intros x y. apply moves_in_front_sound.
  - intros x y. apply moves_in_front_complete.
Qed.

(** On every engine the records missing the sort field end up behind all
    the others. *)
Lemma sortedJobs_missing_last e f d jobs :
  sortedJobs e f d jobs
  = filter (fun j => missing f j = false) (sortedJobs e f d jobs)
    ++ filter (fun j => missing f j = true) (sortedJobs e f d jobs).
Proof.
  rewrite (ordered_split (compareFn f d) (fun j => missing f j = false)
             (sortedJobs e f d jobs)) at 1.
  - f_equal. apply list_filter_iff. intros j.
    destruct (missing f j); split; congruence.
  - intros t m Ht Hm. apply not_false_is_true in Hm.
    change (goes_before f d t m = true).
    rewrite (goes_before_missing f d t m Hm), Ht. reflexivity.
  - apply sortedJobs_ordered.
Qed.

(** The first engine keeps the records missing the field in input order,
    the second turns their order round. *)
Lemma sortedJobs_missing_tail e f d jobs :
  filter (fun j => missing f j = true) (sortedJobs e f d jobs)
  = match e with
    | NewFirst => filter (fun j => missing f j = true) jobs
    | EarlierFirst => reverse (filter (fun j => missing f j = true) jobs)
    end.
Proof.
  destruct e.
  - apply Array_sort_stable. intros x y Hx _.
    rewrite moves_in_front_jobs, (missing_not_before f d x y Hx). reflexivity.
  - apply Array_sort_top_reversed.
    + intros x y Hx Hy. rewrite moves_in_front_jobs, Hx, Hy. apply orb_true_r.
    + intros m p' Hm Hp. apply not_true_is_false in Hp.
      rewrite moves_in_front_jobs, (missing_not_before f d m p' Hm), Hp.
      rewrite andb_false_r. reflexivity.
    + intros p' m Hp Hm. apply not_true_is_false in Hp.
      rewrite moves_in_front_jobs, (goes_before_missing f d p' m Hm), Hp.
      reflexivity.
Qed.
End ComparatorFacts.

(** ** Letter case *)

Section LetterCase.
Lemma N_of_lower_char c :
  N_of_ascii (lower_char c)
  = (if capital_code (N_of_ascii c) then N_of_ascii c + 32 else N_of_ascii c)%N.
Proof.
  unfold lower_char.
  destruct (capital_code (N_of_ascii c)) eqn:E; [| reflexivity].
  apply N_ascii_embedding. unfold capital_code in E.
  destruct (N.leb_spec (N_of_ascii c) 90), (N.leb_spec (N_of_ascii c) 222);
    try lia; rewrite ?andb_false_r in E; simpl in E; discriminate E.
Qed.

Lemma same_letter_lower c1 c2 :
  same_letter c1 c2 = true <-> lower_char c1 = lower_char c2.
Proof.
  transitivity (N_of_ascii (lower_char c1) = N_of_ascii (lower_char c2)).
  - rewrite !N_of_lower_char. unfold same_letter, capital_code.
    destruct (N.leb_spec 65 (N_of_ascii c1)), (N.leb_spec (N_of_ascii c1) 90),
      (N.leb_spec 192 (N_of_ascii c1)), (N.leb_spec (N_of_ascii c1) 222),
      (N.eqb_spec (N_of_ascii c1) 215),
      (N.leb_spec 65 (N_of_ascii c2)), (N.leb_spec (N_of_ascii c2) 90),
      (N.leb_spec 192 (N_of_ascii c2)), (N.leb_spec (N_of_ascii c2) 222),
      (N.eqb_spec (N_of_ascii c2) 215);
      simpl; try lia;
      rewrite ?andb_true_r, ?andb_false_r, ?orb_false_r, ?orb_true_iff, ?N.eqb_eq;
      lia.
  - split; [| congruence]. intros H.
    rewrite <- (ascii_N_embedding (lower_char c1)), H. apply ascii_N_embedding.
Qed.

Lemma eq_ignore_case_lower s1 : forall s2,
  eq_ignore_case s1 s2 = true <-> toLowerCase s1 = toLowerCase s2.
Proof.
  induction s1 as [| c1 s1 IH]; intros [| c2 s2]; simpl; try (split; congruence).
  rewrite andb_true_iff, same_letter_lower, IH. split.
  - intros [-> ->]. reflexivity.
  - intros H. injection H. auto.
Qed.

Lemma eq_ignore_case_empty s1 s2 :
  eq_ignore_case s1 s2 = true -> String.eqb s1 EmptyString = String.eqb s2 EmptyString.
Proof. destruct s1, s2; simpl; congruence. Qed.

(** The string comparator sees a text only up to the case of its letters. *)
Lemma compare_strings_ignore_case d s1 s1' s2 s2' :
  eq_ignore_case s1 s1' = true -> eq_ignore_case s2 s2' = true ->
  compare_strings d s1 s2 = compare_strings d s1' s2'.
Proof.
  intros H1 H2. unfold compare_strings.
  rewrite (eq_ignore_case_empty _ _ H1), (eq_ignore_case_empty _ _ H2).
  apply eq_ignore_case_lower in H1, H2. rewrite H1, H2. reflexivity.
Qed.
End LetterCase.

(** ** Table sort *)

Section TableSortFacts.
Implicit Types (e : Engine) (f : SortField.t) (d : SortDirection) (a b : Job).

Lemma tied_class f d a x y :
  tied f d a x = true -> tied f d a y = true -> goes_before f d x y = false.
Proof.
  unfold tied. rewrite !andb_true_iff, !negb_true_iff. intros [_ Hxa] [Hay _].
  destruct (goes_before f d x y) eqn:Hxy; [| reflexivity].
  destruct (goes_before_negtrans f d x a y Hxy); congruence.
Qed.

Lemma tied_present f d a x :
  missing f a = false -> tied f d a x = true -> missing f x = false.
Proof.
  intros Ha. unfold tied. rewrite andb_true_iff, !negb_true_iff. intros [Hax _].
  destruct (missing f x) eqn:Hx; [| reflexivity].
  rewrite (goes_before_missing f d a x Hx), Ha in Hax. discriminate.
Qed.

Lemma sortedJobs_in_order e f d jobs : in_order f d (sortedJobs e f d jobs) = true.
Proof. apply in_order_ordered, sortedJobs_ordered. Qed.

Lemma sortedJobs_perm e f d jobs : sortedJobs e f d jobs ≡ₚ jobs.
Proof. apply Array_sort_perm. Qed.

(** On every engine, records holding tied values keep their input order. *)
Lemma sortedJobs_stable_present e f d jobs a :
  missing f a = false ->
  filter (fun b => tied f d a b = true) (sortedJobs e f d jobs)
  = filter (fun b => tied f d a b = true) jobs.
Proof.
  intros Ha. apply Array_sort_stable. intros x y Hx Hy.
  rewrite moves_in_front_jobs, (tied_class f d a x y Hx Hy).
  rewrite (tied_present f d a x Ha Hx), andb_false_r. reflexivity.
Qed.

(** On the first engine so do the records missing the field. *)
Lemma sortedJobs_stable_new_first f d jobs a :
  filter (fun b => tied f d a b = true) (sortedJobs NewFirst f d jobs)
  = filter (fun b => tied f d a b = true) jobs.
Proof.
  apply Array_sort_stable. intros x y Hx Hy.
  rewrite moves_in_front_jobs, (tied_class f d a x y Hx Hy). reflexivity.
Qed.

(** Any arrangement of the input that is in order and keeps tied records in
    input order is the one the first engine returns. *)
Lemma sortedJobs_unique f d jobs out :
  out ≡ₚ jobs ->
  in_order f d out = true ->
  (forall a, filter (fun b => tied f d a b = true) out
             = filter (fun b => tied f d a b = true) jobs) ->
  out = sortedJobs NewFirst f d jobs.
Proof.
  intros Hperm Hord Hstable.
  assert (Htied : forall a x,
    tied f d a x = true
    <-> (compareFn f d a x <? 0)%Z = false /\ (compareFn f d x a <? 0)%Z = false).
  { intros a x. unfold tied, goes_before.
    rewrite andb_true_iff, !negb_true_iff. reflexivity. }
  apply (ordered_stable_unique (compareFn f d)).
  - intros x y. apply (goes_before_asym f d x y).
  - apply in_order_ordered, Hord.
  - apply sortedJobs_ordered.
  - rewrite Hperm. symmetry. apply sortedJobs_perm.
  - intros a.
    rewrite <- !(list_filter_iff _ _ _ (Htied a)).
    rewrite Hstable. symmetry. apply sortedJobs_stable_new_first.
Qed.

(** With at most one record missing the field the engines agree. *)
Lemma sortedJobs_engines_agree e f d jobs :
  (length (filter (fun j => missing f j = true) jobs) <= 1)%nat ->
  sortedJobs e f d jobs = sortedJobs NewFirst f d jobs.
Proof.
  intros Hone. destruct e; [reflexivity |].
  apply sortedJobs_unique.
  - apply sortedJobs_perm.
  - apply sortedJobs_in_order.
  - intros a. destruct (missing f a) eqn:Ha.
    + assert (Hcls : forall b, tied f d a b = true <-> missing f b = true).
      { intros b. unfold tied.
        rewrite (missing_not_before f d a b Ha), (goes_before_missing f d b a Ha).
        simpl. rewrite negb_involutive. reflexivity. }
      rewrite !(list_filter_iff _ _ _ Hcls).
      rewrite (sortedJobs_missing_tail EarlierFirst).
      destruct (filter (fun j => missing f j = true) jobs) as [| m [| m' rest]];
        [reflexivity | reflexivity | simpl in Hone; lia].
    + apply sortedJobs_stable_present, Ha.
Qed.

(** On the first engine the sort is stable and idempotent for every
    collection; on any engine it is for the collections in which at most
    one record misses the sort field. *)
Lemma table_sort_stable_idempotent_new_first f d jobs :
  (in_order f d jobs = true -> sortedJobs NewFirst f d jobs = jobs)
  /\ sortedJobs NewFirst f d (sortedJobs NewFirst f d jobs)
     = sortedJobs NewFirst f d jobs
  /\ forall a,
       filter (fun b => tied f d a b = true) (sortedJobs NewFirst f d jobs)
       = filter (fun b => tied f d a b = true) jobs.
Proof.
  assert (Hid : forall l, in_order f d l = true -> sortedJobs NewFirst f d l = l).
  { intros l Hord. apply Array_sort_settled_id.
    apply in_order_ordered in Hord. exact Hord. }
  split; [apply Hid |]. split; [apply Hid, sortedJobs_in_order |].
  apply sortedJobs_stable_new_first.
Qed.

Lemma table_sort_stable_idempotent_one_missing e f d jobs :
  (length (filter (fun j => missing f j = true) jobs) <= 1)%nat ->
  (in_order f d jobs = true -> sortedJobs e f d jobs = jobs)
  /\ sortedJobs e f d (sortedJobs e f d jobs) = sortedJobs e f d jobs
  /\ forall a,
       filter (fun b => tied f d a b = true) (sortedJobs e f d jobs)
       = filter (fun b => tied f d a b = true) jobs.
Proof.
  intros Hone.
  destruct (table_sort_stable_idempotent_new_first f d jobs) as (Hid & Hidem & Hst).
  rewrite (sortedJobs_engines_agree e f d jobs Hone).
  split; [exact Hid |]. split; [| exact Hst].
  rewrite (sortedJobs_engines_agree e f d (sortedJobs NewFirst f d jobs));
    [exact Hidem |].
  rewrite (sortedJobs_missing_tail NewFirst). exact Hone.
Qed.

Lemma compare_strings_tie d s1 s2 :
  String.eqb s1 EmptyString = false -> eq_ignore_case s1 s2 = true ->
  compare_strings d s1 s2 = 0%Z.
Proof.
  intros Hne Heq. unfold compare_strings.
  rewrite <- (eq_ignore_case_empty _ _ Heq), Hne.
  apply eq_ignore_case_lower in Heq. rewrite Heq. simpl.
  unfold by_direction, String.ltb. rewrite string_compare_refl. reflexivity.
Qed.
End TableSortFacts.

(** The two engines on a comparator that is not consistent: with
    [(a, b) => (a > b ? 1 : 0)] the first leaves the array as it is, the
    second sorts it. *)
Example engines_differ :
  let comparefn (a b : Z) := if (a >? b)%Z then 1%Z else 0%Z in
  Array_sort NewFirst comparefn [3; 1; 4; 1; 5; 9]%Z = [3; 1; 4; 1; 5; 9]%Z
  /\ Array_sort EarlierFirst comparefn [3; 1; 4; 1; 5; 9]%Z = [1; 1; 3; 4; 5; 9]%Z.
Proof. split; reflexivity. Qed.

(** Lower-casing beyond ASCII: A-grave (192) and Thorn (222) move to their
    small letters, the multiplication sign (215), the sharp s (223) and
    y-diaeresis (255) stay. *)
Example toLowerCase_latin1 :
  toLowerCase (String "192" (String "222" (String "215" (String "223"
                 (String "255" "Zz")))))
  = String "224" (String "254" (String "215" (String "223" (String "255" "zz")))).
Proof. reflexivity. Qed.

Example sortedJobs_company_asc (e : Engine) :
  company <$> sortedJobs e SortField.company asc MOCK_JOBS
  = ["Amazon"; "Apple"; "Google"; "Meta"; "Netflix"].
Proof. destruct e; reflexivity. Qed.

Example sortedJobs_initial (e : Engine) :
  id <$> sortedJobs e (sortField initial_sort) (sortDirection initial_sort) MOCK_JOBS
  = ["2"; "3"; "1"; "4"; "5"].
Proof. destruct e; reflexivity. Qed.

Example sortedJobs_status_desc (e : Engine) :
  status <$> sortedJobs e SortField.status desc MOCK_JOBS
  = [REJECTED; OFFER; INTERVIEWING; FOR_INTERVIEW; APPLIED].
Proof. destruct e; reflexivity. Qed.

Example sortedJobs_empty_company :
  let job i name := mkJob i name "Engineer" APPLIED None None None 0 in
  let jobs := [job "1" EmptyString; job "2" "beta"; job "3" EmptyString; job "4" "Alpha"] in
  id <$> sortedJobs NewFirst SortField.company asc jobs = ["4"; "2"; "1"; "3"]
  /\ id <$> sortedJobs NewFirst SortField.company desc jobs = ["2"; "4"; "1"; "3"]
  /\ id <$> sortedJobs EarlierFirst SortField.company asc jobs = ["4"; "2"; "3"; "1"]
  /\ id <$> sortedJobs EarlierFirst SortField.company desc jobs = ["2"; "4"; "3"; "1"].
Proof. repeat split; reflexivity. Qed.

(** C3. That the table sort is stable and idempotent fails on two records
    that both miss the sort field.  The comparator answers 1 for them
    whichever comes first, so the sequence of the two counts as in order;
    the engine that asks [comparefn(earlier, new) > 0] still swaps them, and
    swaps them back when the sorted sequence is sorted again: a sequence
    already in order does not come back identical, and sorting twice is not
    sorting once.  The engine that asks [comparefn(new, earlier) < 0] keeps
    them as they are. *)
Theorem two_missing_records_swap :
  let a := mkJob "1" EmptyString "Engineer" APPLIED None None None 0 in
  let b := mkJob "2" EmptyString "Designer" APPLIED None None None 0 in
  compareFn SortField.company asc a b = 1%Z
  /\ compareFn SortField.company asc b a = 1%Z
  /\ in_order SortField.company asc [a; b] = true
  /\ sortedJobs EarlierFirst SortField.company asc [a; b] = [b; a]
  /\ sortedJobs EarlierFirst SortField.company asc
       (sortedJobs EarlierFirst SortField.company asc [a; b]) = [a; b]
  /\ sortedJobs NewFirst SortField.company asc [a; b] = [a; b]
  /\ sortedJobs NewFirst SortField.company asc [b; a] = [b; a].
Proof. repeat split; reflexivity. Qed.

Section CaseFacts.
Lemma lower_char_not_capital c : capital_code (N_of_ascii (lower_char c)) = false.
Proof.
  rewrite N_of_lower_char.
  destruct (capital_code (N_of_ascii c)) eqn:E; [| exact E].
  unfold capital_code in *.
  destruct (N.leb_spec 65 (N_of_ascii c)), (N.leb_spec (N_of_ascii c) 90),
    (N.leb_spec 192 (N_of_ascii c)), (N.leb_spec (N_of_ascii c) 222);
    simpl in E; try discriminate E; try lia;
    destruct (N.leb_spec 65 (N_of_ascii c + 32)),
      (N.leb_spec (N_of_ascii c + 32) 90),
      (N.leb_spec 192 (N_of_ascii c + 32)),
      (N.leb_spec (N_of_ascii c + 32) 222); simpl; try reflexivity; lia.
Qed.

Lemma no_upper_toLowerCase s : no_upper (toLowerCase s) = true.
Proof.
  induction s as [| c s IH]; [reflexivity |]. simpl.
  rewrite lower_char_not_capital, IH. reflexivity.
Qed.

Lemma toLowerCase_no_upper s : no_upper s = true -> toLowerCase s = s.
Proof.
  induction s as [| c s IH]; [reflexivity |]. simpl.
  rewrite andb_true_iff, negb_true_iff. intros [Hc Hs].
  unfold lower_char. rewrite Hc, (IH Hs). reflexivity.
Qed.

Lemma eq_ignore_case_toLowerCase s : eq_ignore_case s (toLowerCase s) = true.
Proof.
  apply eq_ignore_case_lower. symmetry.
  apply toLowerCase_no_upper, no_upper_toLowerCase.
Qed.

Lemma by_direction_zero d (lt gt : bool) :
  by_direction d lt gt = 0%Z <-> lt = false /\ gt = false.
Proof.
  destruct d, lt, gt; cbv;
    (split; [intros H; first [discriminate H | auto]
            | intros [H1 H2]; first [discriminate H1 | discriminate H2 | reflexivity]]).
Qed.

Lemma string_ltb_neither s1 s2 :
  String.ltb s1 s2 = false /\ String.ltb s2 s1 = false <-> s1 = s2.
Proof.
  unfold String.ltb. rewrite (String.compare_antisym s2 s1). split.
  - intros [H1 H2]. apply String.compare_eq_iff.
    destruct (String.compare s1 s2); simpl in *; congruence.
  - intros ->. rewrite string_compare_refl. auto.
Qed.

(** Two present texts tie under the comparator exactly when they are equal
    up to the case of their letters. *)
Lemma compare_strings_zero d s1 s2 :
  String.eqb s1 EmptyString = false -> String.eqb s2 EmptyString = false ->
  compare_strings d s1 s2 = 0%Z <-> eq_ignore_case s1 s2 = true.
Proof.
  intros H1 H2. unfold compare_strings. rewrite H1, H2.
  cbv zeta. rewrite by_direction_zero, string_ltb_neither, eq_ignore_case_lower.
  reflexivity.
Qed.

Lemma text_of_missing f j :
  missing f j = true <-> text_of f j = Some EmptyString.
Proof.
  destruct f; simpl.
  - rewrite String.eqb_eq. split; congruence.
  - rewrite String.eqb_eq. split; congruence.
  - split; [discriminate |]. intros [= H].
    pose proof (status_name_nonempty (status j)) as Hne.
    rewrite H in Hne. discriminate Hne.
  - split; discriminate.
Qed.

(** The sorted sequence, cut at the first record missing the field. *)
Lemma sortedJobs_cut e f d jobs :
  sortedJobs e f d jobs
  = filter (fun j => missing f j = false) (sortedJobs e f d jobs)
    ++ match e with
       | NewFirst => filter (fun j => missing f j = true) jobs
       | EarlierFirst => reverse (filter (fun j => missing f j = true) jobs)
       end.
Proof.
  rewrite <- (sortedJobs_missing_tail e f d jobs).
  apply sortedJobs_missing_last.
Qed.

Lemma sortedJobs_front_perm e f d jobs (P : Job -> Prop) `{!forall j, Decision (P j)} :
  filter P (sortedJobs e f d jobs) ≡ₚ filter P jobs.
Proof. rewrite (sortedJobs_perm e f d jobs). reflexivity. Qed.
End CaseFacts.

(** C4. For every engine, collection, sort field and direction.  The sorted
    sequence is a rearrangement of the input in the comparator's order: the
    records holding a value for the field, then the records missing one,
    which are the input's (in input order on the first engine, turned round
    on the second), whatever the direction.  A record misses the field when
    the text of the field is empty; a status and a creation time never are.
    On the string fields the comparator sees the texts only up to letter
    case: it answers the same on texts equal up to case, it ties two
    present texts exactly when they are equal up to case, every text is
    equal up to case to its lower-case form, which has no capital, and two
    present texts without capitals are ordered as strings, code unit by
    code unit, reversed when descending.  On [createdAt] the comparator is
    the comparison of the two instants, reversed when descending. *)
Theorem table_sort_order
    (e : Engine) (f : SortField.t) (d : SortDirection) (jobs : list Job) :
  sortedJobs e f d jobs
    = filter (fun j => missing f j = false) (sortedJobs e f d jobs)
      ++ match e with
         | NewFirst => filter (fun j => missing f j = true) jobs
         | EarlierFirst => reverse (filter (fun j => missing f j = true) jobs)
         end
  /\ filter (fun j => missing f j = false) (sortedJobs e f d jobs)
     ≡ₚ filter (fun j => missing f j = false) jobs
  /\ sortedJobs e f d jobs ≡ₚ jobs
  /\ StronglySorted (fun x y => (compareFn f d y x <? 0)%Z = false)
       (sortedJobs e f d jobs)
  /\ in_order f d (sortedJobs e f d jobs) = true
  /\ (forall j,
        (missing f j = true <-> text_of f j = Some EmptyString)
        /\ text_of SortField.company j = Some (company j)
        /\ text_of SortField.position j = Some (position j)
        /\ text_of SortField.status j = Some (status_name (status j))
        /\ text_of SortField.createdAt j = None
        /\ missing SortField.status j = false
        /\ missing SortField.createdAt j = false)
  /\ (forall a b, missing f b = true ->
        (compareFn f d a b <? 0)%Z = negb (missing f a)
        /\ (compareFn f d b a <? 0)%Z = false)
  /\ (forall a a' b b' sa sa' sb sb',
        text_of f a = Some sa -> text_of f a' = Some sa' ->
        text_of f b = Some sb -> text_of f b' = Some sb' ->
        eq_ignore_case sa sa' = true -> eq_ignore_case sb sb' = true ->
        compareFn f d a b = compareFn f d a' b')
  /\ (forall a b sa sb,
        text_of f a = Some sa -> text_of f b = Some sb ->
        sa <> EmptyString -> sb <> EmptyString ->
        (compareFn f d a b = 0%Z <-> eq_ignore_case sa sb = true))
  /\ (forall s,
        eq_ignore_case s (toLowerCase s) = true
        /\ no_upper (toLowerCase s) = true)
  /\ (forall a b sa sb,
        text_of f a = Some sa -> text_of f b = Some sb ->
        sa <> EmptyString -> sb <> EmptyString ->
        no_upper sa = true -> no_upper sb = true ->
        (compareFn f d a b <? 0)%Z
        = match d with
          | asc => String.ltb sa sb
          | desc => String.ltb sb sa
          end)
  /\ (forall a b sa sb,
        text_of f a = Some sa -> text_of f b = Some sb ->
        sa <> EmptyString -> sb <> EmptyString ->
        goes_before f d a b
        = match d with
          | asc => String.ltb (toLowerCase sa) (toLowerCase sb)
          | desc => String.ltb (toLowerCase sb) (toLowerCase sa)
          end)
  /\ (forall a b,
        compareFn SortField.createdAt d a b
        = match (createdAt a ?= createdAt b)%Z, d with
          | Eq, _ => 0
          | Lt, asc | Gt, desc => -1
          | Gt, asc | Lt, desc => 1
          end%Z).
Proof.
  assert (Horder : forall a b sa sb,
            text_of f a = Some sa -> text_of f b = Some sb ->
            sa <> EmptyString -> sb <> EmptyString ->
            goes_before f d a b
            = match d with
              | asc => String.ltb (toLowerCase sa) (toLowerCase sb)
              | desc => String.ltb (toLowerCase sb) (toLowerCase sa)
              end).
  { intros a b sa sb Ha Hb Hna Hnb.
    apply String.eqb_neq in Hna, Hnb. unfold goes_before.
    destruct f; simpl in *; try discriminate;
      injection Ha as <-; injection Hb as <-;
      rewrite compare_strings_front, Hna, Hnb; reflexivity. }
  split; [apply sortedJobs_cut |].
  split; [apply sortedJobs_front_perm |].
  split; [apply sortedJobs_perm |].
  split; [apply (sortedJobs_ordered e f d jobs) |].
  split; [apply sortedJobs_in_order |].
  split.
  { intros j. split; [apply text_of_missing |]. repeat split; reflexivity. }
  split.
  { intros a b Hb. split; [apply (goes_before_missing f d a b Hb) |].
    apply (missing_not_before f d b a Hb). }
  split.
  { intros a a' b b' sa sa' sb sb' Ha Ha' Hb Hb' H1 H2.
    destruct f; simpl in *; try discriminate;
      injection Ha as <-; injection Ha' as <-; injection Hb as <-;
      injection Hb' as <-; apply compare_strings_ignore_case; assumption. }
  split.
  { intros a b sa sb Ha Hb Hna Hnb. apply String.eqb_neq in Hna, Hnb.
    destruct f; simpl in *; try discriminate;
      injection Ha as <-; injection Hb as <-;
      apply compare_strings_zero; assumption. }
  split.
  { intros s. split; [apply eq_ignore_case_toLowerCase | apply no_upper_toLowerCase]. }
  split.
  { intros a b sa sb Ha Hb Hna Hnb Hla Hlb.
    change ((compareFn f d a b <? 0)%Z) with (goes_before f d a b).
    rewrite (Horder a b sa sb Ha Hb Hna Hnb).
    rewrite (toLowerCase_no_upper sa Hla), (toLowerCase_no_upper sb Hlb).
    reflexivity. }
  split; [exact Horder |].
  intros a b. simpl. unfold compare_dates, by_direction.
  destruct (Z.compare_spec (createdAt a) (createdAt b)) as [Heq | Hlt | Hgt].
  - rewrite Heq, Z.ltb_irrefl. reflexivity.
  - apply Z.ltb_lt in Hlt as Hlt'. rewrite Hlt'. destruct d; reflexivity.
  - apply Z.ltb_lt in Hgt as Hgt'. rewrite Hgt'.
    assert ((createdAt a <? createdAt b)%Z = false) as -> by (apply Z.ltb_ge; lia).
    destruct d; reflexivity.
Qed.

Lemma table_sort_order_witness :
  let job i name := mkJob i name "Engineer" APPLIED None None None 0 in
  let jobs := [job "1" EmptyString; job "2" "beta"; job "3" EmptyString;
               job "4" "Alpha"; job "5" "alpha"] in
  id <$> sortedJobs EarlierFirst SortField.company desc jobs
    = ["2"; "4"; "5"; "3"; "1"]
  /\ sortedJobs EarlierFirst SortField.company desc jobs
     = filter (fun j => missing SortField.company j = false)
         (sortedJobs EarlierFirst SortField.company desc jobs)
       ++ [job "3" EmptyString; job "1" EmptyString]
  /\ (compareFn SortField.company desc (job "7" "Acme") (job "8" EmptyString) <? 0)%Z
     = true
  /\ compareFn SortField.company desc (job "7" "Acme") (job "8" "Zeta")
     = compareFn SortField.company desc (job "7" "ACME") (job "8" "zeta")
  /\ compareFn SortField.company desc (job "7" "Acme") (job "8" "aCME") = 0%Z
  /\ compareFn SortField.company asc
       (job "7" (String "201"%char "clair")) (job "8" (String "233"%char "CLAIR"))
     = 0%Z
  /\ (compareFn SortField.company desc (job "7" "acme") (job "8" "zeta") <? 0)%Z
     = false
  /\ (compareFn SortField.company asc (job "7" "acme") (job "8" "zeta") <? 0)%Z
     = true
  /\ goes_before SortField.company asc (job "7" "Zeta") (job "8" "acme") = false.
Proof.
  intros job jobs.
  destruct (table_sort_order EarlierFirst SortField.company desc jobs)
    as (Hcut & _ & _ & _ & _ & _ & Hmissing & Hcase & Htie & _ & Hraw & _ & _).
  destruct (table_sort_order NewFirst SortField.company asc jobs)
    as (_ & _ & _ & _ & _ & _ & _ & _ & Htie' & _ & Hraw' & Hlow' & _).
  split; [reflexivity |].
  split; [exact Hcut |].
  split; [apply (Hmissing (job "7" "Acme") (job "8" EmptyString)); reflexivity |].
  split.
  { apply (Hcase (job "7" "Acme") (job "7" "ACME") (job "8" "Zeta") (job "8" "zeta")
             "Acme" "ACME" "Zeta" "zeta"); reflexivity. }
  split.
  { apply (Htie (job "7" "Acme") (job "8" "aCME") "Acme" "aCME");
      [reflexivity | reflexivity | discriminate | discriminate | reflexivity]. }
  split.
  { apply (Htie' (job "7" (String "201"%char "clair"))
             (job "8" (String "233"%char "CLAIR"))
             (String "201"%char "clair") (String "233"%char "CLAIR"));
      [reflexivity | reflexivity | discriminate | discriminate | reflexivity]. }
  split.
  { rewrite (Hraw (job "7" "acme") (job "8" "zeta") "acme" "zeta");
      [reflexivity | reflexivity | reflexivity | discriminate | discriminate
      | reflexivity | reflexivity]. }
  split.
  { rewrite (Hraw' (job "7" "acme") (job "8" "zeta") "acme" "zeta");
      [reflexivity | reflexivity | reflexivity | discriminate | discriminate
      | reflexivity | reflexivity]. }
  rewrite (Hlow' (job "7" "Zeta") (job "8" "acme") "Zeta" "acme");
    [reflexivity | reflexivity | reflexivity | discriminate | discriminate].
Defined.

(** C10. In the table sort a record whose company (or position) is the empty
    string is treated as missing the value.  The comparator answers 1 when
    its first record has the empty text and -1 when only its second has, in
    both directions, although as a lower-cased string the empty text is
    below every other.  On every engine and in both directions the sorted
    sequence is a rearrangement of the input that ends with the input's
    records of empty text (in input order on the first engine, turned round
    on the second), after all the records with a non-empty text. *)
Theorem empty_text_sorts_last (e : Engine) (d : SortDirection) (jobs : list Job) :
  (forall a b, company a = EmptyString -> compareFn SortField.company d a b = 1%Z)
  /\ (forall a b, company a <> EmptyString -> company b = EmptyString ->
        compareFn SortField.company d a b = (-1)%Z)
  /\ (forall a b, position a = EmptyString -> compareFn SortField.position d a b = 1%Z)
  /\ (forall a b, position a <> EmptyString -> position b = EmptyString ->
        compareFn SortField.position d a b = (-1)%Z)
  /\ (forall s, s <> EmptyString ->
        String.ltb (toLowerCase EmptyString) (toLowerCase s) = true)
  /\ sortedJobs e SortField.company d jobs
     = filter (fun j => company j <> EmptyString) (sortedJobs e SortField.company d jobs)
       ++ match e with
          | NewFirst => filter (fun j => company j = EmptyString) jobs
          | EarlierFirst => reverse (filter (fun j => company j = EmptyString) jobs)
          end
  /\ filter (fun j => company j <> EmptyString) (sortedJobs e SortField.company d jobs)
     ≡ₚ filter (fun j => company j <> EmptyString) jobs
  /\ sortedJobs e SortField.company d jobs ≡ₚ jobs
  /\ sortedJobs e SortField.position d jobs
     = filter (fun j => position j <> EmptyString) (sortedJobs e SortField.position d jobs)
       ++ match e with
          | NewFirst => filter (fun j => position j = EmptyString) jobs
          | EarlierFirst => reverse (filter (fun j => position j = EmptyString) jobs)
          end
  /\ filter (fun j => position j <> EmptyString) (sortedJobs e SortField.position d jobs)
     ≡ₚ filter (fun j => position j <> EmptyString) jobs
  /\ sortedJobs e SortField.position d jobs ≡ₚ jobs.
Proof.
  assert (Hfirst : forall s1 s2, s1 = EmptyString -> compare_strings d s1 s2 = 1%Z).
  { intros s1 s2 ->. reflexivity. }
  assert (Hsecond : forall s1 s2, s1 <> EmptyString -> s2 = EmptyString ->
                    compare_strings d s1 s2 = (-1)%Z).
  { intros s1 s2 Hne ->. unfold compare_strings.
    apply String.eqb_neq in Hne. rewrite Hne. reflexivity. }
  assert (Hcut : forall f (text : Job -> string),
            (forall j, missing f j = String.eqb (text j) EmptyString) ->
            sortedJobs e f d jobs
            = filter (fun j => text j <> EmptyString) (sortedJobs e f d jobs)
              ++ match e with
                 | NewFirst => filter (fun j => text j = EmptyString) jobs
                 | EarlierFirst => reverse (filter (fun j => text j = EmptyString) jobs)
                 end).
  { intros f text Htext.
    assert (Hyes : forall j, missing f j = true <-> text j = EmptyString).
    { intros j. rewrite Htext. apply String.eqb_eq. }
    assert (Hno : forall j, missing f j = false <-> text j <> EmptyString).
    { intros j. rewrite Htext. apply String.eqb_neq. }
    rewrite (sortedJobs_cut e f d jobs) at 1.
    rewrite !(list_filter_iff _ _ _ Hyes), (list_filter_iff _ _ _ Hno).
    reflexivity. }
  split; [intros a b; apply Hfirst |].
  split; [intros a b; apply Hsecond |].
  split; [intros a b; apply Hfirst |].
  split; [intros a b; apply Hsecond |].
  split; [intros [| c s] Hs; [congruence | reflexivity] |].
  split; [apply (Hcut SortField.company company); reflexivity |].
  split; [apply sortedJobs_front_perm |].
  split; [apply sortedJobs_perm |].
  split; [apply (Hcut SortField.position position); reflexivity |].
  split; [apply sortedJobs_front_perm |].
  apply sortedJobs_perm.
Qed.

Lemma empty_text_sorts_last_witness :
  let job i name := mkJob i name "Engineer" APPLIED None None None 0 in
  let jobs := [job "1" EmptyString; job "2" "beta"; job "3" EmptyString;
               job "4" "Alpha"] in
  id <$> sortedJobs NewFirst SortField.company asc jobs = ["4"; "2"; "1"; "3"]
  /\ sortedJobs NewFirst SortField.company asc jobs
     = filter (fun j => company j <> EmptyString)
         (sortedJobs NewFirst SortField.company asc jobs)
       ++ [job "1" EmptyString; job "3" EmptyString]
  /\ compareFn SortField.company asc (job "1" EmptyString) (job "2" "beta") = 1%Z
  /\ compareFn SortField.company asc (job "2" "beta") (job "1" EmptyString) = (-1)%Z
  /\ String.ltb (toLowerCase EmptyString) (toLowerCase "beta") = true.
Proof.
  intros job jobs.
  destruct (empty_text_sorts_last NewFirst asc jobs)
    as (H1 & H2 & _ & _ & H5 & Hcut & _).
  split; [reflexivity |].
  split; [exact Hcut |].
  split; [apply H1; reflexivity |].
  split; [apply H2; [discriminate | reflexivity] |].
  apply H5. discriminate.
Defined.

(** ** Sort state *)

(** C8. From any sort state: clicking the selected field keeps the field
    and flips the direction; clicking another field selects it with the
    direction ascending; clicking the selected field twice gives back the
    state one started from. *)
Theorem handleSort_toggle (st : SortState) (field : SortField.t) :
  handleSort (sortField st) st
    = mkSort (sortField st)
             (match sortDirection st with asc => desc | desc => asc end)
  /\ (sortField st <> field -> handleSort field st = mkSort field asc)
  /\ handleSort (sortField st) (handleSort (sortField st) st) = st.
Proof.
  destruct st as [f0 d0]. unfold handleSort. simpl.
  split; [| split].
  - rewrite decide_True by reflexivity. destruct d0; reflexivity.
  - intros Hne. rewrite decide_False by exact Hne. reflexivity.
  - destruct (decide (f0 = f0)) as [_ |]; [simpl | congruence].
    destruct (decide (f0 = f0)) as [_ |]; [| congruence].
    destruct d0; reflexivity.
Qed.

Lemma handleSort_toggle_witness :
  handleSort SortField.company initial_sort = mkSort SortField.company asc
  /\ handleSort SortField.createdAt (handleSort SortField.createdAt initial_sort)
     = initial_sort.
Proof.
  split.
  - apply (proj1 (proj2 (handleSort_toggle initial_sort SortField.company))).
    discriminate.
  - apply (proj2 (proj2 (handleSort_toggle initial_sort SortField.company))).
Defined.

(** ** Status changes *)

Section StatusChangeFacts.
Implicit Types (jobs : list Job) (job : Job) (jobId : string).
Implicit Types (newStatus : JobStatus).

Lemma handleStatusChange_lookup jobId newStatus jobs (i : nat) :
  handleStatusChange jobId newStatus jobs !! i
  = (fun job => if String.eqb (id job) jobId then set_status job newStatus else job)
      <$> jobs !! i.
Proof. unfold handleStatusChange. apply list_lookup_fmap. Qed.

Lemma handleStatusChange_absent jobId newStatus jobs :
  (forall job, job ∈ jobs -> id job <> jobId) ->
  handleStatusChange jobId newStatus jobs = jobs.
Proof.
  intros Habsent. unfold handleStatusChange.
  induction jobs as [| job rest IH]; [reflexivity |].
  rewrite fmap_cons. f_equal.
  - assert (Hne : id job <> jobId) by (apply Habsent; left).
    apply String.eqb_neq in Hne. rewrite Hne. reflexivity.
  - apply IH. intros j Hj. apply Habsent. right. exact Hj.
Qed.

Lemma handleStatusChange_ids jobId newStatus jobs :
  id <$> handleStatusChange jobId newStatus jobs = id <$> jobs.
Proof.
  unfold handleStatusChange. rewrite <- list_fmap_compose.
  apply list_fmap_ext. intros _ job _. simpl.
  destruct (String.eqb (id job) jobId); reflexivity.
Qed.
End StatusChangeFacts.

(** C5. Changing a status is total and unconstrained.  For every record and
    every status, whatever the record's current one: the card menu offers
    the change; the changed record holds the new status and differs from
    the old one in no other field; and in the collection, the handler
    rewrites the records carrying the identifier in this way and leaves
    every other record as it is, at its place. *)
Theorem changeStatus_total (job : Job) (newStatus : JobStatus) :
  (id job, newStatus) ∈ menu_calls job
  /\ status (set_status job newStatus) = newStatus
  /\ set_status job newStatus
     = mkJob (id job) (company job) (position job) newStatus (url job)
             (salary job) (note job) (createdAt job)
  /\ (forall jobs jobId,
        length (handleStatusChange jobId newStatus jobs) = length jobs)
  /\ (forall jobs (i : nat) other,
        jobs !! i = Some other -> id other <> id job ->
        handleStatusChange (id job) newStatus jobs !! i = Some other)
  /\ (forall jobs (i : nat),
        jobs !! i = Some job ->
        handleStatusChange (id job) newStatus jobs !! i
        = Some (set_status job newStatus)).
Proof.
  split; [| split; [| split; [| split; [| split]]]].
  - unfold menu_calls. apply list_elem_of_fmap. exists newStatus.
    split; [reflexivity | apply columns_complete].
  - reflexivity.
  - reflexivity.
  - intros jobs jobId. unfold handleStatusChange. apply length_fmap.
  - intros jobs i other Hi Hne. rewrite handleStatusChange_lookup, Hi. simpl.
    apply String.eqb_neq in Hne. rewrite Hne. reflexivity.
  - intros jobs i Hi. rewrite handleStatusChange_lookup, Hi. simpl.
    rewrite String.eqb_refl. reflexivity.
Qed.

Lemma changeStatus_total_witness :
  handleStatusChange "5" HIRED MOCK_JOBS !! 0%nat = MOCK_JOBS !! 0%nat
  /\ handleStatusChange "5" HIRED MOCK_JOBS !! 4%nat
     = Some (mkJob "5" "Apple" "iOS Developer" HIRED None
               (Some "$145k - $185k") (Some "Not a good fit") 1704412800000).
Proof.
  destruct (changeStatus_total
              (mkJob "5" "Apple" "iOS Developer" REJECTED None
                 (Some "$145k - $185k") (Some "Not a good fit") 1704412800000)
              HIRED) as (_ & _ & _ & _ & Hother & Hself).
  split.
  - apply (Hother MOCK_JOBS 0%nat); [reflexivity | discriminate].
  - apply (Hself MOCK_JOBS 4%nat). reflexivity.
Defined.

(** C9. A status change aimed at an identifier that no displayed record
    carries leaves the collection exactly as it was; and no status change
    removes, adds or reorders records: the identifiers stay the same, in
    the same places. *)
Theorem absent_id_leaves_jobs_unchanged
    (jobs : list Job) (jobId : string) (newStatus : JobStatus) :
  ((forall job, job ∈ jobs -> id job <> jobId) ->
     handleStatusChange jobId newStatus jobs = jobs)
  /\ id <$> handleStatusChange jobId newStatus jobs = id <$> jobs
  /\ length (handleStatusChange jobId newStatus jobs) = length jobs.
Proof.
  split; [apply handleStatusChange_absent |].
  split; [apply handleStatusChange_ids |].
  unfold handleStatusChange. apply length_fmap.
Qed.

Lemma absent_id_leaves_jobs_unchanged_witness :
  handleStatusChange "99" OFFER MOCK_JOBS = MOCK_JOBS.
Proof.
  apply (proj1 (absent_id_leaves_jobs_unchanged MOCK_JOBS "99" OFFER)).
  intros job Hjob. unfold MOCK_JOBS in Hjob.
  repeat (apply elem_of_cons in Hjob as [-> | Hjob]; [discriminate |]).
  apply elem_of_nil in Hjob. contradiction.
Defined.

(** ** Mutation layer *)

Section MutationFacts.
Import Schema.

Lemma insert_row_defaults fresh now v :
  new_status v = None -> new_createdAt v = None -> new_id v = None ->
  Schema.status (insert_row fresh now v) = APPLYING
  /\ Schema.createdAt (insert_row fresh now v) = now
  /\ Schema.id (insert_row fresh now v) = fresh.
Proof. unfold insert_row. intros -> -> ->. simpl. auto. Qed.

Lemma find_owned_none rows recordId requesterId :
  List.find (owned_by recordId requesterId) rows = None
  <-> forall r, r ∈ rows ->
        ~ (Schema.id r = recordId /\ Schema.userId r = requesterId).
Proof.
  induction rows as [| r0 rows IH]; simpl.
  - split; [| reflexivity]. intros _ r Hr. apply elem_of_nil in Hr. contradiction.
  - destruct (owned_by recordId requesterId r0) eqn:E.
    + split; [discriminate |]. intros H. exfalso. apply (H r0); [left |].
      unfold owned_by in E. apply andb_true_iff in E as [E1 E2].
      apply String.eqb_eq in E1, E2. auto.
    + rewrite IH. split.
      * intros H r Hr. apply elem_of_cons in Hr as [-> | Hr]; [| apply H, Hr].
        intros [H1 H2]. unfold owned_by in E.
        apply String.eqb_eq in H1, H2. rewrite H1, H2 in E. discriminate.
      * intros H r Hr. apply H. right. exact Hr.
Qed.

Lemma find_owned_some rows recordId requesterId record :
  List.find (owned_by recordId requesterId) rows = Some record ->
  record ∈ rows /\ Schema.id record = recordId /\ Schema.userId record = requesterId.
Proof.
  intros H. apply List.find_some in H as [Hin Hown].
  apply list_elem_of_In in Hin. unfold owned_by in Hown.
  apply andb_true_iff in Hown as [H1 H2]. apply String.eqb_eq in H1, H2. auto.
Qed.
(** What the requester sees of the store. *)
Lemma to_job_changeStatus r newStatus :
  to_job (changeStatus r newStatus) = set_status (to_job r) newStatus.
Proof. reflexivity. Qed.

(** On the records of one owner the stored update and the dashboard's
    handler do the same thing. *)
Lemma updateStatus_as_handler rows recordId newStatus requesterId record rows' :
  Forall (fun r => Schema.userId r = requesterId) rows ->
  updateStatus rows recordId newStatus requesterId = inr (record, rows') ->
  to_job <$> rows' = handleStatusChange recordId newStatus (to_job <$> rows).
Proof.
  intros Hown. unfold updateStatus.
  destruct (List.find (owned_by recordId requesterId) rows); [| discriminate].
  intros [= _ <-]. unfold handleStatusChange.
  rewrite <- !list_fmap_compose.
  induction Hown as [| r rows Hr _ IH]; [reflexivity |].
  rewrite !fmap_cons. f_equal; [| exact IH]. simpl.
  unfold owned_by. rewrite Hr, String.eqb_refl, andb_true_r.
  destruct (String.eqb (Schema.id r) recordId); reflexivity.
Qed.

End MutationFacts.

(** C6. [createJob] fails with [ValidationError] whenever company or
    position is the empty string.  For every non-empty company and position
    it succeeds: the record is appended to the store and returned with the
    generated identifier, the owner, company, position and optional fields
    given, status [APPLYING] (the pipeline's "Applying") and the creation
    time read from the clock at the insert. *)
Theorem createJob_validation (fresh : string) (now : Z) (rows : list Schema.JobsRow)
    (ownerId company position : string) (optionalFields : Schema.OptionalFields) :
  (company = EmptyString \/ position = EmptyString ->
     Schema.createJob fresh now rows ownerId company position optionalFields
     = inl Schema.ValidationError)
  /\ (company <> EmptyString -> position <> EmptyString ->
        exists row,
          Schema.createJob fresh now rows ownerId company position optionalFields
          = inr (row, rows ++ [row])
          /\ Schema.status row = APPLYING
          /\ Schema.createdAt row = now
          /\ Schema.id row = fresh
          /\ Schema.userId row = ownerId
          /\ Schema.company row = company
          /\ Schema.position row = position
          /\ Schema.url row = Schema.opt_url optionalFields
          /\ Schema.salary row = Schema.opt_salary optionalFields
          /\ Schema.jobDescription row = Schema.opt_jobDescription optionalFields
          /\ Schema.note row = Schema.opt_note optionalFields).
Proof.
  unfold Schema.createJob. split.
  - intros [-> | ->]; simpl; [reflexivity |].
    rewrite orb_true_r. reflexivity.
  - intros Hc Hp. apply String.eqb_neq in Hc, Hp. rewrite Hc, Hp. simpl.
    eexists. split; [reflexivity |]. simpl. repeat split; reflexivity.
Qed.

Lemma createJob_validation_witness :
  Schema.createJob "id-1" 1700000000000 [] "user-1" EmptyString "Engineer"
    (Schema.mkOpt None None None None)
  = inl Schema.ValidationError
  /\ exists row,
       Schema.createJob "id-1" 1700000000000 [] "user-1" "Acme" "Engineer"
         (Schema.mkOpt None None None None)
       = inr (row, [row])
       /\ Schema.status row = APPLYING
       /\ Schema.createdAt row = 1700000000000%Z.
Proof.
  destruct (createJob_validation "id-1" 1700000000000 [] "user-1" EmptyString "Engineer"
              (Schema.mkOpt None None None None)) as [Hfail _].
  destruct (createJob_validation "id-1" 1700000000000 [] "user-1" "Acme" "Engineer"
              (Schema.mkOpt None None None None)) as [_ Hok].
  split; [apply Hfail; left; reflexivity |].
  destruct Hok as (row & Hrun & Hstatus & Htime & _); [discriminate | discriminate |].
  exists row. split; [exact Hrun |]. split; assumption.
Defined.

(** C7. For every record identifier, new status and requester:
    [updateStatus] fails with [NotFound] when no stored record with that
    identifier is owned by the requester, in particular when the record
    exists but belongs to another user; otherwise it returns a stored
    record with that identifier and owner, changed to the new status and in
    nothing else, and the store holds the change. *)
Theorem updateStatus_ownership (rows : list Schema.JobsRow) (recordId : string)
    (newStatus : JobStatus) (requesterId : string) :
  ((forall r, r ∈ rows ->
      ~ (Schema.id r = recordId /\ Schema.userId r = requesterId)) ->
     Schema.updateStatus rows recordId newStatus requesterId = inl Schema.NotFound)
  /\ (forall r, r ∈ rows -> Schema.id r = recordId -> Schema.userId r <> requesterId ->
        (forall r', r' ∈ rows -> Schema.id r' = recordId -> r' = r) ->
        Schema.updateStatus rows recordId newStatus requesterId = inl Schema.NotFound)
  /\ (forall r, r ∈ rows -> Schema.id r = recordId -> Schema.userId r = requesterId ->
        exists record rows',
          Schema.updateStatus rows recordId newStatus requesterId
          = inr (Schema.changeStatus record newStatus, rows')
          /\ record ∈ rows
          /\ Schema.id record = recordId
          /\ Schema.userId record = requesterId
          /\ Schema.status (Schema.changeStatus record newStatus) = newStatus
          /\ Schema.changeStatus record newStatus
             = Schema.mkRow (Schema.id record) (Schema.userId record)
                 (Schema.company record) (Schema.position record) newStatus
                 (Schema.url record) (Schema.salary record)
                 (Schema.jobDescription record) (Schema.note record)
                 (Schema.createdAt record)
          /\ Schema.changeStatus record newStatus ∈ rows'
          /\ length rows' = length rows).
Proof.
  assert (Hnone : (forall r, r ∈ rows ->
                     ~ (Schema.id r = recordId /\ Schema.userId r = requesterId)) ->
                  Schema.updateStatus rows recordId newStatus requesterId
                  = inl Schema.NotFound).
  { intros H. apply (proj2 (find_owned_none _ _ _)) in H. unfold Schema.updateStatus.
    rewrite H. reflexivity. }
  split; [exact Hnone |]. split.
  - intros r Hr Hid Hother Huniq. apply Hnone. intros r' Hr' [Hid' Hown'].
    apply Hother. rewrite <- (Huniq r' Hr' Hid'). exact Hown'.
  - intros r Hr Hid Hown. unfold Schema.updateStatus.
    destruct (List.find (Schema.owned_by recordId requesterId) rows) as [record |] eqn:E.
    + destruct (find_owned_some _ _ _ _ E) as (Hin & Hrid & Hrown).
      eexists record, _. split; [reflexivity |].
      repeat (split; [first [assumption | reflexivity] |]).
      split; [| apply length_fmap].
      apply list_elem_of_fmap. exists record. split; [| exact Hin].
      unfold Schema.owned_by. rewrite Hrid, Hrown, !String.eqb_refl. reflexivity.
    + exfalso. apply (proj1 (find_owned_none rows recordId requesterId) E r Hr). auto.
Qed.

Lemma updateStatus_ownership_witness :
  let row := Schema.mkRow "job-1" "owner" "Acme" "Engineer" APPLIED None None
               None None 1705276800000 in
  Schema.updateStatus [row] "job-1" OFFER "other-user" = inl Schema.NotFound
  /\ Schema.updateStatus [row] "job-2" OFFER "owner" = inl Schema.NotFound
  /\ exists record rows',
       Schema.updateStatus [row] "job-1" OFFER "owner"
       = inr (Schema.changeStatus record OFFER, rows')
       /\ Schema.status (Schema.changeStatus record OFFER) = OFFER.
Proof.
  intros row.
  destruct (updateStatus_ownership [row] "job-1" OFFER "other-user")
    as (_ & Hother & _).
  destruct (updateStatus_ownership [row] "job-2" OFFER "owner") as (Hnone & _).
  destruct (updateStatus_ownership [row] "job-1" OFFER "owner") as (_ & _ & Hok).
  split; [| split].
  - apply (Hother row); [left | reflexivity | discriminate |].
    intros r' Hr' _. apply list_elem_of_singleton in Hr'. exact Hr'.
  - apply Hnone. intros r Hr [Hid _].
    apply list_elem_of_singleton in Hr. subst r. discriminate Hid.
  - destruct (Hok row) as (record & rows' & Hrun & _ & _ & _ & Hstatus & _);
      [left | reflexivity | reflexivity |].
    exists record, rows'. split; assumption.
Defined.

(** * Further properties of the views *)

(** ** Status configuration *)

Section ConfigFacts.
Implicit Types (s : JobStatus) (job : Job).

Lemma config_of_columns s : is_Some (config_of s).
Proof. destruct s; eexists; reflexivity. Qed.

Lemma config_label_inj s1 s2 :
  label <$> config_of s1 = label <$> config_of s2 -> s1 = s2.
Proof. destruct s1, s2; intros H; first [reflexivity | discriminate H]. Qed.

Lemma status_menu_spec job :
  status_menu job
  = Some ((fun status =>
             mkItem (String.append "Move to "
                       (default EmptyString (label <$> config_of status)))
                    (id job, status)) <$> columns).
Proof. reflexivity. Qed.

Lemma status_name_inj s1 s2 : status_name s1 = status_name s2 -> s1 = s2.
Proof. destruct s1, s2; intros H; first [reflexivity | discriminate H]. Qed.
End ConfigFacts.

(** X1. Every status has an entry in [STATUS_CONFIG], so the lookups of the
    views never meet [undefined], and the labels tell the statuses apart.
    The menu of a card therefore always renders: one entry per status, in
    column order, making the calls of [menu_calls], under eleven texts that
    differ from one another. *)
Theorem status_config_lookup (job : Job) (s1 s2 : JobStatus) :
  is_Some (config_of s1)
  /\ (label <$> config_of s1 = label <$> config_of s2 -> s1 = s2)
  /\ exists menu,
       status_menu job = Some menu
       /\ item_call <$> menu = menu_calls job
       /\ length menu = 11
       /\ NoDup (item_text <$> menu).
Proof.
  split; [apply config_of_columns |].
  split; [apply config_label_inj |].
  eexists. split; [apply status_menu_spec |].
  split; [| split].
  - rewrite <- list_fmap_compose. reflexivity.
  - reflexivity.
  - rewrite <- list_fmap_compose. apply (bool_decide_unpack _). vm_compute. exact I.
Qed.

Lemma status_config_lookup_witness :
  label <$> config_of APPLYING = Some "To Apply"
  /\ (label <$> config_of ON_HOLD = label <$> config_of ON_HOLD -> ON_HOLD = ON_HOLD).
Proof.
  split; [reflexivity |].
  apply (proj1 (proj2 (status_config_lookup
           (mkJob "1" "Acme" "Engineer" APPLYING None None None 0)
           ON_HOLD ON_HOLD))).
Defined.

(** X2. The values of the stored [job_status] enum are the keys of
    [STATUS_CONFIG]: a text is a value of the enum exactly when it is the
    key of a status, no value is declared twice, and the column default
    [APPLYING] is one of them.  Only the order of declaration differs from
    the order of the columns. *)
Theorem jobStatusEnum_matches_config (name : string) :
  (name ∈ jobStatusEnum <-> exists s, status_name s = name)
  /\ NoDup jobStatusEnum
  /\ length jobStatusEnum = length columns
  /\ status_name APPLYING ∈ jobStatusEnum
  /\ jobStatusEnum <> status_name <$> columns.
Proof.
  split; [| split; [| split; [| split]]].
  - split.
    + unfold jobStatusEnum. intros H.
      repeat (apply elem_of_cons in H as [-> | H];
              [first [ by exists APPLYING | by exists APPLIED
                     | by exists FOR_INTERVIEW | by exists INTERVIEWING
                     | by exists OFFER | by exists REJECTED
                     | by exists NO_RESPONSE | by exists WITHDRAW
                     | by exists HIRED | by exists NEGOTIATING
                     | by exists ON_HOLD ] |]).
      apply elem_of_nil in H. contradiction.
    + intros [s <-]. destruct s; apply (bool_decide_unpack _); vm_compute; exact I.
  - apply (bool_decide_unpack _). vm_compute. exact I.
  - reflexivity.
  - apply (bool_decide_unpack _). vm_compute. exact I.
  - discriminate.
Qed.

(** ** The board *)

Section BoardFacts.
Implicit Types (jobs : list Job) (job : Job) (s : JobStatus).

Lemma JobCard_spec job :
  exists card,
    JobCard job = Some card
    /\ card_key card = id job
    /\ card_company card = company job
    /\ card_position card = position job
    /\ card_salary card = (if truthy (salary job) then salary job else None)
    /\ Some (card_badge card) = config_of (status job)
    /\ Some (card_menu card) = status_menu job.
Proof.
  unfold JobCard. destruct (config_of_columns (status job)) as [config ->].
  rewrite status_menu_spec. simpl. eexists. repeat split; reflexivity.
Qed.

Lemma mapM_JobCard jobs :
  exists cards, mapM JobCard jobs = Some cards /\ card_key <$> cards = id <$> jobs.
Proof.
  induction jobs as [| job rest (cards & Hrun & Hkeys)]; [by exists [] |].
  destruct (JobCard_spec job) as (card & Hcard & Hkey & _).
  exists (card :: cards). split.
  - simpl. rewrite Hcard. simpl. rewrite Hrun. reflexivity.
  - rewrite !fmap_cons, Hkey, Hkeys. reflexivity.
Qed.

Lemma KanbanColumn_spec s jobs :
  exists column,
    KanbanColumn s jobs = Some column
    /\ column_key column = s
    /\ Some (column_label column) = label <$> config_of s
    /\ column_badge column = length jobs
    /\ card_key <$> column_cards column = id <$> jobs
    /\ column_placeholder column = Nat.eqb (length jobs) 0.
Proof.
  unfold KanbanColumn. destruct (config_of_columns s) as [config ->].
  destruct (mapM_JobCard jobs) as (cards & -> & Hkeys). simpl.
  eexists. repeat split; first [reflexivity | exact Hkeys].
Qed.

Lemma total_count_lookup jobs (grouped : gmap JobStatus (list Job)) :
  (forall s, grouped !! s = Some (filter (fun j => status j = s) jobs)) ->
  total_count grouped = length jobs.
Proof.
  intros Hlook. unfold total_count.
  rewrite (list_fmap_compose (bucket grouped) length), sum_list_length_concat.
  erewrite list_fmap_ext;
    [| intros i s _; unfold bucket; apply lookup_total_correct, Hlook].
  rewrite concat_filter_status by apply columns_NoDup.
  rewrite filter_all_statuses. reflexivity.
Qed.
(** The columns rendered for a list of statuses. *)
Lemma board_columns_spec jobs (grouped : gmap JobStatus (list Job)) (ss : list JobStatus) :
  (forall s, grouped !! s = Some (filter (fun j => status j = s) jobs)) ->
  exists board,
    mapM (fun status => column_jobs ← grouped !! status;
                        KanbanColumn status column_jobs) ss = Some board
    /\ column_key <$> board = ss
    /\ Forall (fun column =>
         let mine := filter (fun j => status j = column_key column) jobs in
         Some (column_label column) = label <$> config_of (column_key column)
         /\ column_badge column = length mine
         /\ card_key <$> column_cards column = id <$> mine
         /\ (column_placeholder column = true <-> mine = [])) board
    /\ column_badge <$> board = (fun s => length (bucket grouped s)) <$> ss.
Proof.
  intros Hlook.
  induction ss as [| s ss (board & Hrun & Hkeys & Hcols & Hbadges)].
  - exists []. repeat split; constructor.
  - destruct (KanbanColumn_spec s (filter (fun j => status j = s) jobs))
      as (column & Hcol & Hkey & Hlabel & Hbadge & Hcards & Hplace).
    exists (column :: board). split; [| split; [| split]].
    + simpl. rewrite Hlook. simpl. rewrite Hcol. simpl. rewrite Hrun. reflexivity.
    + rewrite fmap_cons, Hkey, Hkeys. reflexivity.
    + constructor; [| exact Hcols]. simpl. rewrite Hkey.
      split; [exact Hlabel |]. split; [exact Hbadge |]. split; [exact Hcards |].
      rewrite Hplace, Nat.eqb_eq. apply length_zero_iff_nil.
    + rewrite !fmap_cons, Hbadge, Hbadges. f_equal. unfold bucket.
      symmetry. f_equal. apply lookup_total_correct, Hlook.
Qed.
End BoardFacts.

(** X3. The board renders for every collection: eleven columns in the order
    of [STATUS_CONFIG], each under the label of its status; the badge of a
    column counts the jobs holding its status, its cards are those jobs in
    input order, and the [No jobs yet] box stands in exactly the columns
    whose status no job holds.  The badges add up to the number of jobs. *)
Theorem KanbanBoard_renders (jobs : list Job) :
  exists board,
    KanbanBoard jobs = Some board
    /\ column_key <$> board = columns
    /\ Forall (fun column =>
         let mine := filter (fun j => status j = column_key column) jobs in
         Some (column_label column) = label <$> config_of (column_key column)
         /\ column_badge column = length mine
         /\ card_key <$> column_cards column = id <$> mine
         /\ (column_placeholder column = true <-> mine = [])) board
    /\ sum_list (column_badge <$> board) = length jobs.
Proof.
  unfold KanbanBoard.
  destruct (jobsByStatus_lookup jobs) as (grouped & -> & Hlook). simpl.
  destruct (board_columns_spec jobs grouped columns Hlook)
    as (board & Hrun & Hkeys & Hcols & Hbadges).
  exists board. split; [exact Hrun |]. split; [exact Hkeys |]. split; [exact Hcols |].
  rewrite Hbadges. apply (total_count_lookup jobs grouped Hlook).
Qed.

(** ** Status changes on the dashboard *)

Section HandlerFacts.
Implicit Types (jobs : list Job) (job : Job) (i : string) (s t : JobStatus).

Lemma set_status_twice job s t : set_status (set_status job s) t = set_status job t.
Proof. reflexivity. Qed.

Lemma set_status_same job : set_status job (status job) = job.
Proof. destruct job; reflexivity. Qed.

Lemma handleStatusChange_elem i s jobs job :
  job ∈ handleStatusChange i s jobs
  <-> exists job0, job0 ∈ jobs
        /\ job = (if String.eqb (id job0) i then set_status job0 s else job0).
Proof.
  unfold handleStatusChange. rewrite list_elem_of_fmap.
  split; intros (job0 & H1 & H2); exists job0; auto.
Qed.

Lemma handleStatusChange_filter_other i s s' jobs :
  s' <> s ->
  filter (fun j => status j = s') (handleStatusChange i s jobs)
  = filter (fun j => status j = s' /\ id j <> i) jobs.
Proof.
  intros Hne. unfold handleStatusChange.
  induction jobs as [| job rest IH]; [reflexivity |].
  rewrite fmap_cons, !filter_cons, IH.
  destruct (String.eqb_spec (id job) i) as [Heq | Hneq]; simpl.
  - rewrite decide_False by congruence. rewrite decide_False by tauto. reflexivity.
  - destruct (decide (status job = s')).
    + rewrite decide_True by tauto. reflexivity.
    + rewrite decide_False by tauto. reflexivity.
Qed.

Lemma handleStatusChange_filter_target i s jobs :
  filter (fun j => status j = s) (handleStatusChange i s jobs)
  = handleStatusChange i s (filter (fun j => id j = i \/ status j = s) jobs).
Proof.
  unfold handleStatusChange.
  induction jobs as [| job rest IH]; [reflexivity |].
  rewrite fmap_cons, !filter_cons, IH.
  destruct (String.eqb_spec (id job) i) as [Heq | Hneq]; simpl.
  - rewrite decide_True by reflexivity. rewrite decide_True by tauto.
    rewrite fmap_cons. apply String.eqb_eq in Heq. rewrite Heq. reflexivity.
  - destruct (decide (status job = s)).
    + rewrite decide_True by tauto. rewrite fmap_cons.
      apply String.eqb_neq in Hneq. rewrite Hneq. reflexivity.
    + rewrite decide_False by tauto. reflexivity.
Qed.
End HandlerFacts.

(** X4. Moving a card.  After the status of a displayed job is changed, the
    board has its record, with the new status, in the column of that
    status; no other column holds a record with its identifier; the
    records with other identifiers are in the columns they were in; and the
    board holds as many cards as before. *)
Theorem move_card (jobs : list Job) (job : Job) (s : JobStatus) :
  job ∈ jobs ->
  exists grouped,
    jobsByStatus (handleStatusChange (id job) s jobs) = Some grouped
    /\ set_status job s ∈ bucket grouped s
    /\ (forall s' j, j ∈ bucket grouped s' -> id j = id job -> s' = s)
    /\ (forall s' j, id j <> id job ->
          (j ∈ bucket grouped s' <-> j ∈ jobs /\ status j = s'))
    /\ total_count grouped = length jobs.
Proof.
  intros Hin.
  destruct (jobsByStatus_lookup (handleStatusChange (id job) s jobs))
    as (grouped & Hrun & Hlook).
  assert (Hbucket : forall s', bucket grouped s'
            = filter (fun j => status j = s') (handleStatusChange (id job) s jobs)).
  { intros s'. unfold bucket. apply lookup_total_correct, Hlook. }
  exists grouped. split; [exact Hrun |]. split; [| split; [| split]].
  - rewrite Hbucket, list_elem_of_filter. split; [reflexivity |].
    apply handleStatusChange_elem. exists job. split; [exact Hin |].
    rewrite String.eqb_refl. reflexivity.
  - intros s' j Hj Hid. rewrite Hbucket, list_elem_of_filter in Hj.
    destruct Hj as [Hst Hj]. apply handleStatusChange_elem in Hj as (j0 & _ & Hj0).
    destruct (String.eqb_spec (id j0) (id job)) as [_ | Hne].
    + subst j. rewrite <- Hst. reflexivity.
    + subst j. contradiction.
  - intros s' j Hid. rewrite Hbucket, list_elem_of_filter, handleStatusChange_elem.
    split.
    + intros [Hst (j0 & Hj0 & Hj)].
      destruct (String.eqb_spec (id j0) (id job)) as [Heq | Hne].
      * subst j. simpl in Hid. contradiction.
      * subst j. auto.
    + intros [Hj Hst]. split; [exact Hst |]. exists j. split; [exact Hj |].
      apply String.eqb_neq in Hid. rewrite Hid. reflexivity.
  - rewrite (total_count_lookup _ grouped Hlook).
    unfold handleStatusChange. apply length_fmap.
Qed.

Lemma move_card_witness :
  exists grouped,
    jobsByStatus (handleStatusChange "2" OFFER MOCK_JOBS) = Some grouped
    /\ id <$> bucket grouped OFFER = ["2"; "4"].
Proof.
  destruct (move_card MOCK_JOBS
              (mkJob "2" "Meta" "Frontend Developer" APPLIED None
                 (Some "$140k - $180k") None 1705708800000) OFFER)
    as (grouped & Hrun & _).
  - apply (bool_decide_unpack _). vm_compute. exact I.
  - exists grouped. split; [exact Hrun |].
    vm_compute in Hrun. injection Hrun as <-. vm_compute. reflexivity.
Defined.

(** X5. Two status changes of the same identifier in a row leave what the
    second alone leaves: the last choice wins, and repeating a change
    changes nothing more. *)
Theorem handleStatusChange_last_wins
    (jobs : list Job) (i : string) (s t : JobStatus) :
  handleStatusChange i t (handleStatusChange i s jobs) = handleStatusChange i t jobs
  /\ handleStatusChange i s (handleStatusChange i s jobs) = handleStatusChange i s jobs.
Proof.
  assert (H : forall s t, handleStatusChange i t (handleStatusChange i s jobs)
                          = handleStatusChange i t jobs).
  { intros s0 t0. unfold handleStatusChange. rewrite <- list_fmap_compose.
    apply list_fmap_ext. intros _ job _. simpl.
    destruct (String.eqb (id job) i) eqn:E; simpl; rewrite E; reflexivity. }
  split; apply H.
Qed.

(** X6. Status changes of different identifiers do not interfere: they give
    the same collection in either order. *)
Theorem handleStatusChange_commute
    (jobs : list Job) (i j : string) (s t : JobStatus) :
  i <> j ->
  handleStatusChange i s (handleStatusChange j t jobs)
  = handleStatusChange j t (handleStatusChange i s jobs).
Proof.
  intros Hne. unfold handleStatusChange. rewrite <- !list_fmap_compose.
  apply list_fmap_ext. intros _ job _. simpl.
  destruct (String.eqb (id job) i) eqn:Ei, (String.eqb (id job) j) eqn:Ej;
    simpl; rewrite ?Ei, ?Ej; try reflexivity.
  apply String.eqb_eq in Ei, Ej. congruence.
Qed.

Lemma handleStatusChange_commute_witness :
  handleStatusChange "1" HIRED (handleStatusChange "2" OFFER MOCK_JOBS)
  = handleStatusChange "2" OFFER (handleStatusChange "1" HIRED MOCK_JOBS).
Proof. apply handleStatusChange_commute. discriminate. Defined.

(** X7. Choosing for a job the status it already has changes nothing,
    provided every record carrying its identifier has that status (as when
    identifiers are unique). *)
Theorem handleStatusChange_same_status
    (jobs : list Job) (i : string) (s : JobStatus) :
  (forall job, job ∈ jobs -> id job = i -> status job = s) ->
  handleStatusChange i s jobs = jobs.
Proof.
  intros Hsame. unfold handleStatusChange.
  induction jobs as [| job rest IH]; [reflexivity |].
  rewrite fmap_cons. f_equal.
  - destruct (String.eqb_spec (id job) i) as [Heq | _]; [| reflexivity].
    rewrite <- (Hsame job); [apply set_status_same | left | exact Heq].
  - apply IH. intros j Hj. apply Hsame. right. exact Hj.
Qed.

Lemma handleStatusChange_same_status_witness :
  handleStatusChange "4" OFFER MOCK_JOBS = MOCK_JOBS.
Proof.
  apply handleStatusChange_same_status.
  intros job Hjob Hid. unfold MOCK_JOBS in Hjob.
  repeat (apply elem_of_cons in Hjob as [-> | Hjob];
          [first [reflexivity | discriminate Hid] |]).
  apply elem_of_nil in Hjob. contradiction.
Defined.

(** X8. The stats cards agree with the board: the total is the number of
    cards on it, and the three counts are the badges of the Interviewing,
    Offer and Hired columns.  A status change leaves the total as it is. *)
Theorem stats_cards_match_board
    (jobs : list Job) (i : string) (s : JobStatus) :
  (exists grouped,
     jobsByStatus jobs = Some grouped
     /\ stat_total (stats_cards jobs) = total_count grouped
     /\ stat_interviewing (stats_cards jobs) = length (bucket grouped INTERVIEWING)
     /\ stat_offers (stats_cards jobs) = length (bucket grouped OFFER)
     /\ stat_hired (stats_cards jobs) = length (bucket grouped HIRED))
  /\ (stat_interviewing (stats_cards jobs) + stat_offers (stats_cards jobs)
      + stat_hired (stats_cards jobs) <= stat_total (stats_cards jobs))%nat
  /\ stat_total (stats_cards (handleStatusChange i s jobs))
     = stat_total (stats_cards jobs).
Proof.
  split; [| split].
  - destruct (jobsByStatus_lookup jobs) as (grouped & Hrun & Hlook).
    exists grouped. split; [exact Hrun |].
    split; [symmetry; apply (total_count_lookup jobs grouped Hlook) |].
    unfold bucket. rewrite !(lookup_total_correct _ _ _ (Hlook _)).
    repeat split; reflexivity.
  - simpl. induction jobs as [| job rest IH]; [simpl; lia |].
    rewrite !filter_cons.
    destruct (status job); simpl;
      repeat (rewrite decide_False by discriminate);
      repeat (rewrite decide_True by reflexivity); simpl; lia.
  - simpl. unfold handleStatusChange. apply length_fmap.
Qed.

(** ** The table *)

(** X9. A click on a column header always selects that column, and every
    sort state of a column is reached from any state by one click on it or
    by two; a third click in a row gives what the first gave. *)
Theorem handleSort_reaches (st : SortState) (f : SortField.t) (d : SortDirection) :
  sortField (handleSort f st) = f
  /\ (handleSort f st = mkSort f d \/ handleSort f (handleSort f st) = mkSort f d)
  /\ handleSort f (handleSort f (handleSort f st)) = handleSort f st.
Proof.
  destruct st as [f0 d0].
  destruct f0, f, d0, d; cbv; auto.
Qed.

Section TableViewFacts.
Implicit Types (e : Engine) (f : SortField.t) (d : SortDirection).
Implicit Types (jobs : list Job) (a b : Job).

Lemma no_missing_filter f jobs :
  Forall (fun j => missing f j = false) jobs ->
  filter (fun j => missing f j = true) jobs = [].
Proof.
  intros H. apply filter_none. eapply Forall_impl; [exact H |].
  intros j Hj. simpl in Hj. congruence.
Qed.

Lemma never_missing f jobs :
  f = SortField.status \/ f = SortField.createdAt ->
  Forall (fun j => missing f j = false) jobs.
Proof. intros [-> | ->]; apply Forall_forall; reflexivity. Qed.

Lemma goes_before_flip f a b :
  missing f a = false -> missing f b = false ->
  goes_before f desc a b = goes_before f asc b a.
Proof.
  unfold goes_before, missing.
  destruct f; simpl; intros Ha Hb;
    rewrite ?compare_strings_front, ?compare_dates_front, ?status_name_nonempty,
      ?Ha, ?Hb; reflexivity.
Qed.

Lemma tied_direction f d a b : tied f d a b = tied f asc a b.
Proof.
  destruct d; [reflexivity |]. unfold tied.
  destruct (missing f a) eqn:Ha.
  { rewrite !(missing_not_before f _ a b Ha), !(goes_before_missing f _ b a Ha).
    reflexivity. }
  destruct (missing f b) eqn:Hb.
  { rewrite !(missing_not_before f _ b a Hb), !(goes_before_missing f _ a b Hb).
    reflexivity. }
  rewrite (goes_before_flip f a b Ha Hb), (goes_before_flip f b a Hb Ha).
  apply andb_comm.
Qed.

Lemma tied_sym f d a b : tied f d a b = tied f d b a.
Proof. unfold tied. apply andb_comm. Qed.

Lemma tied_trans f d a x y :
  tied f d a x = true -> tied f d a y = true -> tied f d x y = true.
Proof.
  intros Hx Hy. unfold tied.
  rewrite (tied_class f d a x y Hx Hy), (tied_class f d a y x Hy Hx). reflexivity.
Qed.

Lemma no_ties_filter f d a jobs :
  no_ties f jobs = true ->
  (length (filter (fun b => tied f d a b = true) jobs) <= 1)%nat.
Proof.
  induction jobs as [| x rest IH]; simpl; [lia |].
  rewrite andb_true_iff, forallb_forall. intros [Hx Hrest].
  rewrite filter_cons. destruct (decide (tied f d a x = true)) as [Hax |];
    [| apply IH, Hrest].
  rewrite (filter_none (fun b => tied f d a b = true) rest); [simpl; lia |].
  apply Forall_forall. intros y Hy Hay.
  apply list_elem_of_In, Hx, negb_true_iff in Hy.
  rewrite <- (tied_direction f d), (tied_trans f d a x y Hax Hay) in Hy.
  discriminate.
Qed.

Lemma short_perm_eq (l1 l2 : list Job) :
  l1 ≡ₚ l2 -> (length l1 <= 1)%nat -> l1 = l2.
Proof.
  destruct l1 as [| x [| y l1]]; simpl; intros Hperm Hlen; [| | lia].
  - apply Permutation_nil_l in Hperm. exact Hperm.
  - apply Permutation_singleton_l in Hperm. congruence.
Qed.

Lemma StronglySorted_reverse_flip (R : Job -> Job -> Prop) l :
  StronglySorted R l -> StronglySorted (fun x y => R y x) (reverse l).
Proof.
  induction 1 as [| x l Hl IH Hx]; [constructor |].
  rewrite reverse_cons. apply StronglySorted_app.
  split; [| split; [exact IH | repeat constructor]].
  intros x1 x2 Hx1 Hx2. apply list_elem_of_singleton in Hx2 as ->.
  rewrite elem_of_reverse in Hx1. rewrite Forall_forall in Hx. apply Hx, Hx1.
Qed.

Lemma StronglySorted_on (P : Job -> Prop) (R R' : Job -> Job -> Prop) l :
  (forall x y, P x -> P y -> R x y -> R' x y) ->
  Forall P l -> StronglySorted R l -> StronglySorted R' l.
Proof.
  intros Himpl HP. induction 1 as [| x l Hl IH Hx]; [constructor |].
  apply Forall_cons in HP as [Hpx HP].
  constructor; [exact (IH HP) |].
  rewrite Forall_forall in *. intros y Hy. apply Himpl; auto.
Qed.
End TableViewFacts.

(** X10. Sorting by status or by creation time never meets a missing value
    (a status key and a [Date] are truthy), and neither does sorting by
    company or position a collection without empty texts.  There the two
    engines return the same sequence, a sequence already in order comes
    back as it is, sorting the sorted sequence changes nothing, and tied
    records keep their input order. *)
Theorem table_sort_no_missing
    (e : Engine) (f : SortField.t) (d : SortDirection) (jobs : list Job) :
  f = SortField.status \/ f = SortField.createdAt
  \/ Forall (fun j => missing f j = false) jobs ->
  sortedJobs e f d jobs = sortedJobs NewFirst f d jobs
  /\ (in_order f d jobs = true -> sortedJobs e f d jobs = jobs)
  /\ sortedJobs e f d (sortedJobs e f d jobs) = sortedJobs e f d jobs
  /\ forall a,
       filter (fun b => tied f d a b = true) (sortedJobs e f d jobs)
       = filter (fun b => tied f d a b = true) jobs.
Proof.
  intros H.
  assert (Hnone : Forall (fun j => missing f j = false) jobs).
  { destruct H as [H | [H | H]]; [apply never_missing | apply never_missing |];
      auto. }
  assert (Hone : (length (filter (fun j => missing f j = true) jobs) <= 1)%nat).
  { rewrite (no_missing_filter f jobs Hnone). simpl. lia. }
  split; [apply sortedJobs_engines_agree, Hone |].
  apply table_sort_stable_idempotent_one_missing, Hone.
Qed.

Lemma table_sort_no_missing_witness :
  sortedJobs EarlierFirst SortField.status asc MOCK_JOBS
  = sortedJobs NewFirst SortField.status asc MOCK_JOBS.
Proof.
  apply (table_sort_no_missing EarlierFirst SortField.status asc MOCK_JOBS).
  left. reflexivity.
Defined.

(** X11. When no record misses the sort field and no two records are tied
    under it, the descending table is the ascending table read backwards,
    on either engine. *)
Theorem sort_desc_reverses_asc (e : Engine) (f : SortField.t) (jobs : list Job) :
  Forall (fun j => missing f j = false) jobs ->
  no_ties f jobs = true ->
  sortedJobs e f desc jobs = reverse (sortedJobs e f asc jobs).
Proof.
  intros Hnone Hties.
  assert (Hone : (length (filter (fun j => missing f j = true) jobs) <= 1)%nat).
  { rewrite (no_missing_filter f jobs Hnone). simpl. lia. }
  rewrite !(sortedJobs_engines_agree e f _ jobs Hone).
  symmetry. apply sortedJobs_unique.
  - rewrite reverse_Permutation. apply sortedJobs_perm.
  - apply in_order_ordered. unfold ordered.
    apply (StronglySorted_on (fun j => missing f j = false)
             (fun x y => goes_before f asc x y = false)).
    + intros x y Hx Hy Hxy. change (goes_before f desc y x = false).
      rewrite (goes_before_flip f y x Hy Hx). exact Hxy.
    + apply Forall_forall. intros x Hx. rewrite elem_of_reverse in Hx.
      rewrite Forall_forall in Hnone. apply Hnone.
      rewrite <- (sortedJobs_perm NewFirst f asc jobs). exact Hx.
    + apply (StronglySorted_reverse_flip (fun x y => goes_before f asc y x = false)).
      apply (sortedJobs_ordered NewFirst f asc jobs).
  - intros a. apply short_perm_eq.
    + rewrite reverse_Permutation, (sortedJobs_perm NewFirst f asc jobs). reflexivity.
    + erewrite Permutation_length;
        [apply (no_ties_filter f desc a jobs Hties) |].
      rewrite reverse_Permutation, (sortedJobs_perm NewFirst f asc jobs). reflexivity.
Qed.

Lemma sort_desc_reverses_asc_witness :
  sortedJobs NewFirst SortField.company desc MOCK_JOBS
  = reverse (sortedJobs NewFirst SortField.company asc MOCK_JOBS).
Proof.
  apply sort_desc_reverses_asc.
  - repeat constructor.
  - reflexivity.
Defined.

(** With tied records the descending table is not the ascending one read
    backwards: the tied records keep their input order in both. *)
Example sort_desc_with_ties :
  let job i name := mkJob i name "Engineer" APPLIED None None None 0 in
  let jobs := [job "1" "acme"; job "2" "Acme"; job "3" "Zeta"] in
  id <$> sortedJobs NewFirst SortField.company asc jobs = ["1"; "2"; "3"]
  /\ id <$> sortedJobs NewFirst SortField.company desc jobs = ["3"; "1"; "2"].
Proof. split; reflexivity. Qed.

(** X12. The table as it first shows (sorted by creation time, descending)
    lists the jobs newest first, and ascending oldest first, on either
    engine; jobs created at the same instant keep their input order. *)
Theorem table_by_creation_time (e : Engine) (d : SortDirection) (jobs : list Job) :
  sortField initial_sort = SortField.createdAt
  /\ sortDirection initial_sort = desc
  /\ StronglySorted
       (fun x y => match d with
                   | asc => (createdAt x <= createdAt y)%Z
                   | desc => (createdAt y <= createdAt x)%Z
                   end)
       (sortedJobs e SortField.createdAt d jobs)
  /\ forall t : Z,
       filter (fun j => createdAt j = t) (sortedJobs e SortField.createdAt d jobs)
       = filter (fun j => createdAt j = t) jobs.
Proof.
  split; [reflexivity |]. split; [reflexivity |]. split.
  - eapply (StronglySorted_on (fun _ => True)); [| apply Forall_true; auto
                                                 | apply (sortedJobs_ordered e)].
    intros x y _ _. simpl. unfold compare_dates, by_direction.
    destruct (Z.ltb_spec (createdAt y) (createdAt x)),
             (Z.ltb_spec (createdAt x) (createdAt y)), d; simpl;
      intros Hc; first [lia | discriminate Hc].
  - intros t.
    set (a := mkJob EmptyString EmptyString EmptyString APPLYING None None None t).
    assert (Hcls : forall b, tied SortField.createdAt d a b = true <-> createdAt b = t).
    { intros b. unfold tied, goes_before. simpl. unfold compare_dates, by_direction.
      destruct (Z.ltb_spec t (createdAt b)), (Z.ltb_spec (createdAt b) t), d;
        simpl; split; intros Hc; first [lia | discriminate Hc | reflexivity]. }
    rewrite <- !(list_filter_iff _ _ _ Hcls).
    apply sortedJobs_stable_present. reflexivity.
Qed.

(** X13. The table sorted by status lists, for each status, the records the
    kanban column of that status holds, in the same order: the records of
    one status stay in input order, on either engine and in both
    directions. *)
Theorem table_by_status_keeps_columns
    (e : Engine) (d : SortDirection) (jobs : list Job) (s : JobStatus) :
  exists grouped,
    jobsByStatus jobs = Some grouped
    /\ filter (fun j => status j = s) (sortedJobs e SortField.status d jobs)
       = bucket grouped s.
Proof.
  destruct (jobsByStatus_lookup jobs) as (grouped & Hrun & Hlook).
  exists grouped. split; [exact Hrun |].
  unfold bucket. rewrite (lookup_total_correct _ _ _ (Hlook s)).
  set (a := mkJob EmptyString EmptyString EmptyString s None None None 0).
  assert (Hcls : forall b, tied SortField.status d a b = true <-> status b = s).
  { intros b. rewrite tied_direction. unfold tied, goes_before. simpl. split.
    - destruct s, (status b); intros H; first [reflexivity | discriminate H].
    - intros ->. destruct s; reflexivity. }
  rewrite <- !(list_filter_iff _ _ _ Hcls).
  apply sortedJobs_stable_present. reflexivity.
Qed.

Section RowFacts.
Implicit Types (jobs : list Job) (job : Job).

Lemma TableRow_spec job :
  exists row,
    TableRow job = Some row
    /\ row_key row = id job
    /\ row_salary row = (if truthy (salary job) then default "-" (salary job) else "-")
    /\ Some (row_badge row) = config_of (status job)
    /\ Some (row_menu row) = status_menu job.
Proof.
  unfold TableRow. destruct (config_of_columns (status job)) as [config ->].
  rewrite status_menu_spec. simpl. eexists. repeat split; reflexivity.
Qed.

Lemma mapM_TableRow jobs :
  exists rows, mapM TableRow jobs = Some rows /\ row_key <$> rows = id <$> jobs.
Proof.
  induction jobs as [| job rest (rows & Hrun & Hkeys)]; [by exists [] |].
  destruct (TableRow_spec job) as (row & Hrow & Hkey & _).
  exists (row :: rows). split.
  - simpl. rewrite Hrow. simpl. rewrite Hrun. reflexivity.
  - rewrite !fmap_cons, Hkey, Hkeys. reflexivity.
Qed.
End RowFacts.

(** X14. The table body renders for every collection and sort state: the
    [No jobs found] row exactly when there is no job, else one row per job,
    in the order of [sortedJobs]. *)
Theorem JobsTable_body_rows (e : Engine) (st : SortState) (jobs : list Job) :
  exists body,
    JobsTable_body e st jobs = Some body
    /\ (body = NoJobsFound <-> jobs = [])
    /\ forall rows,
         body = TableRows rows ->
         row_key <$> rows
         = id <$> sortedJobs e (sortField st) (sortDirection st) jobs
         /\ length rows = length jobs.
Proof.
  unfold JobsTable_body.
  pose proof (sortedJobs_perm e (sortField st) (sortDirection st) jobs) as Hperm.
  destruct (sortedJobs e (sortField st) (sortDirection st) jobs) as [| x sorted] eqn:E.
  - apply Permutation_nil_l in Hperm. subst jobs. simpl.
    exists NoJobsFound. split; [reflexivity |]. split; [tauto |]. discriminate.
  - destruct (mapM_TableRow (x :: sorted)) as (rows & Hrun & Hkeys).
    change (Nat.eqb (length (x :: sorted)) 0) with false. cbv iota.
    rewrite Hrun. simpl. exists (TableRows rows). split; [reflexivity |].
    split.
    + split; [discriminate |]. intros ->.
      apply Permutation_nil_r in Hperm. discriminate Hperm.
    + intros rows' [= <-]. split; [exact Hkeys |].
      rewrite <- (Permutation_length Hperm).
      rewrite <- (length_fmap row_key), Hkeys, length_fmap. reflexivity.
Qed.

Lemma JobsTable_body_rows_witness :
  exists rows,
    JobsTable_body NewFirst initial_sort MOCK_JOBS = Some (TableRows rows)
    /\ row_key <$> rows = ["2"; "3"; "1"; "4"; "5"].
Proof.
  destruct (JobsTable_body_rows NewFirst initial_sort MOCK_JOBS)
    as (body & Hrun & _ & Hrows).
  vm_compute in Hrun. injection Hrun as <-.
  eexists. split; [vm_compute; reflexivity |].
  apply (Hrows _ eq_refl).
Defined.

(** X15. The card and the table row of a job agree: the same badge, the
    same menu, and the salary cell of the row is the salary line of the
    card, or a dash when the card has none, which is when the salary is
    null, undefined or the empty string. *)
Theorem card_and_row_agree (job : Job) :
  exists card row,
    JobCard job = Some card
    /\ TableRow job = Some row
    /\ card_key card = row_key row
    /\ card_badge card = row_badge row
    /\ card_menu card = row_menu row
    /\ row_salary row = default "-" (card_salary card)
    /\ (card_salary card = None
        <-> salary job = None \/ salary job = Some EmptyString).
Proof.
  destruct (JobCard_spec job) as (card & Hcard & Hkey & _ & _ & Hsal & Hbadge & Hmenu).
  destruct (TableRow_spec job) as (row & Hrow & Hrkey & Hrsal & Hrbadge & Hrmenu).
  exists card, row. split; [exact Hcard |]. split; [exact Hrow |].
  split; [congruence |]. split; [congruence |]. split; [congruence |].
  rewrite Hsal, Hrsal. destruct (salary job) as [[| c text] |]; simpl.
  - split; [reflexivity |]. split; auto.
  - split; [reflexivity |]. split; [discriminate | intros [H | H]; discriminate H].
  - split; [reflexivity |]. split; auto.
Qed.

(** ** Breadcrumbs *)

Section BreadcrumbFacts.
Import Breadcrumbs.

Lemma breadcrumbs_rest (items : list Item) :
  imap ((fun index item =>
           (if Nat.ltb 0 index then [Separator] else []) ++ [crumb_of item]) ∘ S)
       items
  = (fun item => [Separator; crumb_of item]) <$> items.
Proof. rewrite <- imap_const. apply imap_ext. intros i x _. reflexivity. Qed.
End BreadcrumbFacts.

(** X16. The breadcrumb trail shows the items in order, a link for an item
    with a non-empty [href] and plain text otherwise, with a separator in
    front of every item but the first: none for an empty or one-item
    trail, one fewer than the items in all. *)
Theorem DashboardBreadcrumbs_trail (items : list Breadcrumbs.Item) :
  Breadcrumbs.DashboardBreadcrumbs items
  = match items with
    | [] => []
    | first :: rest =>
        Breadcrumbs.crumb_of first
        :: concat ((fun item => [Breadcrumbs.Separator; Breadcrumbs.crumb_of item])
                     <$> rest)
    end
  /\ length (Breadcrumbs.DashboardBreadcrumbs items)
     = (2 * length items - 1)%nat
  /\ Forall (fun item =>
       match Breadcrumbs.href item with
       | Some (String _ _ as target) =>
           Breadcrumbs.crumb_of item = Breadcrumbs.Link target (Breadcrumbs.label item)
       | _ => Breadcrumbs.crumb_of item = Breadcrumbs.Page (Breadcrumbs.label item)
       end) items.
Proof.
  assert (Hshape : Breadcrumbs.DashboardBreadcrumbs items
    = match items with
      | [] => []
      | first :: rest =>
          Breadcrumbs.crumb_of first
          :: concat ((fun item => [Breadcrumbs.Separator; Breadcrumbs.crumb_of item])
                       <$> rest)
      end).
  { unfold Breadcrumbs.DashboardBreadcrumbs. destruct items as [| first rest];
      [reflexivity |].
    rewrite imap_cons, breadcrumbs_rest. reflexivity. }
  split; [exact Hshape |]. split.
  - rewrite Hshape. destruct items as [| first rest]; [reflexivity |]. simpl.
    assert (Hlen : length (concat ((fun item =>
                     [Breadcrumbs.Separator; Breadcrumbs.crumb_of item]) <$> rest))
                   = (2 * length rest)%nat).
    { clear Hshape. induction rest as [| item rest IH]; [reflexivity |].
      rewrite fmap_cons. cbn [concat app length]. rewrite IH. simpl. lia. }
    rewrite Hlen. lia.
  - apply Forall_forall. intros item _. unfold Breadcrumbs.crumb_of.
    destruct (Breadcrumbs.href item) as [[| c target] |]; reflexivity.
Qed.
